(** * flatui font manager: a shallow embedding of [include/flatui/font_manager.h]

    The header defines the cache key [FontBufferParameters], the metrics
    record [FontMetrics], the vertex container [FontBuffer] and the
    interface of [FontManager].  Every inline member function that the
    properties below talk about is transcribed here; integers keep their
    C++ width (wrap-around is written out), a [float] is its IEEE-754
    binary32 bit pattern, and a [std::vector] is its element list together
    with its capacity.

    Conventions.
    - [assert] aborts the program: a function that asserts returns
      [option], and [None] is the failed assertion.
    - A member that a constructor leaves uninitialised keeps whatever the
      storage of the object held before; the constructor takes that prior
      contents as an explicit argument.
    - An access past the end of a vector has no defined result: the
      accessor returns [option], and [None] is the out-of-bounds access. *)

From Stdlib Require Import ZArith List Bool Lia.
From Stdlib Require Import Floats.SpecFloat.
From Stdlib Require String.
Import ListNotations.
Local Open Scope Z_scope.

(* ================================================================== *)
(** * Definitions *)
(* ================================================================== *)

(** ** Fixed-width integers *)

(** Value of [x] converted to an unsigned [w]-bit integer. *)
Definition to_unsigned (w x : Z) : Z := x mod 2 ^ w.

(** Value of [x] converted to a two's complement [w]-bit integer. *)
Definition to_signed (w x : Z) : Z :=
  (x + 2 ^ (w - 1)) mod 2 ^ w - 2 ^ (w - 1).

Definition to_uint32_t : Z -> Z := to_unsigned 32.
Definition to_int32_t : Z -> Z := to_signed 32.
(** [size_t] of an LP64 target. *)
Definition to_size_t : Z -> Z := to_unsigned 64.

Definition is_uint32_t (x : Z) : Prop := 0 <= x < 2 ^ 32.
Definition is_int32_t (x : Z) : Prop := - 2 ^ 31 <= x < 2 ^ 31.

(** [int32_t] arithmetic.  An overflowing signed operation has no defined
    result in C++; the model gives it the two's complement result that the
    supported targets compute. *)
Definition add_int32_t (a b : Z) : Z := to_int32_t (a + b).
Definition sub_int32_t (a b : Z) : Z := to_int32_t (a - b).
Definition mul_int32_t (a b : Z) : Z := to_int32_t (a * b).

(** [uint32_t] arithmetic wraps. *)
Definition add_uint32_t (a b : Z) : Z := to_uint32_t (a + b).
Definition mul_uint32_t (a b : Z) : Z := to_uint32_t (a * b).
(** [size_t] arithmetic wraps. *)
Definition mul_size_t (a b : Z) : Z := to_size_t (a * b).

(** ** Assertions *)

Definition assert (c : bool) : option unit := if c then Some tt else None.

Notation "x <- c1 ;; c2" :=
  (match c1 with Some x => c2 | None => None end)
  (at level 61, c1 at next level, right associativity).
Notation "c1 ;;; c2" :=
  (match c1 with Some _ => c2 | None => None end)
  (at level 61, right associativity).

(** ** Bit-fields

    A bit-field of width [w] at bit offset [s] inside an unsigned word.
    Storing truncates the value to [w] bits and leaves every other bit of
    the word as it was. *)

Module BitField.

Definition mask (s w : Z) : Z := Z.shiftl (Z.ones w) s.

Definition load (s w word : Z) : Z := Z.land (Z.shiftr word s) (Z.ones w).

Definition store (s w v word : Z) : Z :=
  Z.lor (Z.land word (Z.lnot (mask s w))) (Z.land (Z.shiftl v s) (mask s w)).

End BitField.

(** ** Single-precision floats

    A [float] is its 32-bit pattern: sign (bit 31), biased exponent
    (bits 30..23), fraction (bits 22..0).  Comparisons decode the pattern
    into [spec_float] and use the IEEE-754 comparison of the standard
    library's specification of floating-point arithmetic. *)

Module Float32.

Definition prec : Z := 24.
Definition emax : Z := 128.

Definition is_float32 (b : Z) : Prop := 0 <= b < 2 ^ 32.

Definition sign (b : Z) : bool := Z.testbit b 31.
Definition biased_exponent (b : Z) : Z := Z.land (Z.shiftr b 23) 255.
Definition fraction (b : Z) : Z := Z.land b (Z.ones 23).

Definition to_spec (b : Z) : spec_float :=
  let s := sign b in
  let e := biased_exponent b in
  let f := fraction b in
  if e =? 0 then
    match f with
    | Zpos m => S754_finite s m (-149)
    | _ => S754_zero s
    end
  else if e =? 255 then
    if f =? 0 then S754_infinity s else S754_nan
  else
    match f + 2 ^ 23 with
    | Zpos m => S754_finite s m (e - 150)
    | _ => S754_nan
    end.

Definition is_nan (b : Z) : bool :=
  (biased_exponent b =? 255) && negb (fraction b =? 0).

(** [+0.0] is [0x00000000], [-0.0] is [0x80000000]. *)
Definition is_zero (b : Z) : bool :=
  (biased_exponent b =? 0) && (fraction b =? 0).

(** [a == b] on two floats. *)
Definition eqb (a b : Z) : bool := SFeqb (to_spec a) (to_spec b).

(** Conversion of an [int32_t] to [float], rounding to nearest, ties to
    even. *)
Definition of_int32_t (n : Z) : spec_float :=
  binary_normalize prec emax n 0 false.

(** [n > b] for an [int32_t] [n] and a [float] [b]: the usual arithmetic
    conversions turn [n] into a [float] first. *)
Definition int32_gtb (n : Z) (b : Z) : bool :=
  SFltb (to_spec b) (of_int32_t n).

End Float32.

(** The decoding of a bit pattern, by the kind of number it holds. *)
Inductive decoded (b : Z) : spec_float -> Prop :=
| decoded_zero :
    Float32.biased_exponent b = 0 -> Float32.fraction b = 0 ->
    decoded b (S754_zero (Float32.sign b))
| decoded_subnormal : forall m,
    Float32.biased_exponent b = 0 -> Float32.fraction b = Zpos m ->
    decoded b (S754_finite (Float32.sign b) m (-149))
| decoded_infinity :
    Float32.biased_exponent b = 255 -> Float32.fraction b = 0 ->
    decoded b (S754_infinity (Float32.sign b))
| decoded_nan :
    Float32.biased_exponent b = 255 -> Float32.fraction b <> 0 ->
    decoded b S754_nan
| decoded_normal : forall m,
    0 < Float32.biased_exponent b < 255 ->
    Float32.fraction b + 2 ^ 23 = Zpos m ->
    decoded b (S754_finite (Float32.sign b) m (Float32.biased_exponent b - 150)).

(** [SFeqb] holds between two zeros, two infinities of one sign, and two
    finite numbers with the same sign, mantissa and exponent. *)
Definition same_number (x y : spec_float) : Prop :=
  match x, y with
  | S754_zero _, S754_zero _ => True
  | S754_infinity s1, S754_infinity s2 => s1 = s2
  | S754_finite s1 m1 e1, S754_finite s2 m2 e2 =>
      s1 = s2 /\ m1 = m2 /\ e1 = e2
  | _, _ => False
  end.

(** A finite float [m * 2^e] in canonical form: a subnormal number has the
    least exponent, a normal number a mantissa of exactly 24 bits. *)
Definition canonical (m : positive) (e : Z) : Prop :=
  -149 <= e <= 104 /\ Zpos m < 2 ^ 24 /\ (e = -149 \/ 2 ^ 23 <= Zpos m).

(** A zero, or a finite float in canonical form. *)
Definition finite_canonical (x : spec_float) : Prop :=
  match x with
  | S754_zero _ => True
  | S754_finite _ m e => canonical m e
  | _ => False
  end.

(** The value of a zero or finite float, times [2^149]: an integer. *)
Definition scaled_value (x : spec_float) : Z :=
  match x with
  | S754_finite s m e => cond_Zopp s (Zpos m * 2 ^ (e + 149))
  | _ => 0
  end.

(** The integer [n] is greater than the number that the bit pattern [b]
    stands for: an exact comparison of the two values.  Nothing exceeds a
    NaN or plus infinity; everything exceeds minus infinity. *)
Definition exceeds (n b : Z) : Prop :=
  match Float32.to_spec b with
  | S754_nan => False
  | S754_infinity s => s = true
  | x => scaled_value x < n * 2 ^ 149
  end.

(** The shift record of the rounding after [k] right shifts of the
    mantissa [m0]: what is left of the mantissa, and whether a bit that is
    not 0 has been shifted out. *)
Definition shifted (m0 k : Z) (mrs : shr_record) : Prop :=
  shr_m mrs = m0 / 2 ^ k /\
  (shr_r mrs || shr_s mrs = false <-> m0 mod 2 ^ k = 0).

(** ** mathfu vectors *)

Module mathfu.

Record vec2i : Type := Vec2i { x : Z; y : Z }.

Definition kZeros2i : vec2i := Vec2i 0 0.

End mathfu.

(** ** Constants and enumerations of the header *)

Definition kFreeTypeUnit : Z := 64.
Definition kGlyphCacheWidth : Z := 1024.
Definition kGlyphCacheHeight : Z := 1024.
Definition kCaretPositionInvalid : mathfu.vec2i := mathfu.Vec2i (-1) (-1).

(** [enum TextAlignment]: the enumerators are bit flags, an object of the
    enumeration is the integer they combine to. *)
Definition kTextAlignmentLeft : Z := 0.
Definition kTextAlignmentRight : Z := 1.
Definition kTextAlignmentCenter : Z := 2.
Definition kTextAlignmentJustify : Z := 4.
Definition kTextAlignmentLeftJustify : Z := kTextAlignmentJustify.
Definition kTextAlignmentRightJustify : Z :=
  Z.lor kTextAlignmentJustify kTextAlignmentRight.
Definition kTextAlignmentCenterJustify : Z :=
  Z.lor kTextAlignmentJustify kTextAlignmentCenter.

(** The alignment carries the [kTextAlignmentRight] flag. *)
Definition right_variant (alignment : Z) : bool := Z.testbit alignment 0.
(** The alignment carries the [kTextAlignmentJustify] flag. *)
Definition justify_variant (alignment : Z) : bool := Z.testbit alignment 2.

(** ** FontBufferParameters *)

Module FontBufferParameters.

(** [flags_value_] is the [uint32_t] that shares its storage with the
    bit-field struct [FontBufferFlags]: [caret_info] is bit 0,
    [glyph_flags] bits 1..2 and [text_alignement] bits 3..5 (bit-fields
    are allocated from the least significant bit upwards, as the
    little-endian Itanium and ARM ABIs do). *)
Record t : Type := Build {
  font_id_ : Z;
  text_id_ : Z;
  font_size_ : Z;
  size_ : mathfu.vec2i;
  flags_value_ : Z
}.

Definition caret_info_shift : Z := 0.
Definition caret_info_width : Z := 1.
Definition glyph_flags_shift : Z := 1.
Definition glyph_flags_width : Z := 2.
Definition text_alignement_shift : Z := 3.
Definition text_alignement_width : Z := 3.

Definition store_caret_info (v : bool) : Z -> Z :=
  BitField.store caret_info_shift caret_info_width (Z.b2z v).
Definition store_glyph_flags (v : Z) : Z -> Z :=
  BitField.store glyph_flags_shift glyph_flags_width v.
Definition store_text_alignement (v : Z) : Z -> Z :=
  BitField.store text_alignement_shift text_alignement_width v.

(** [FontBufferParameters()].  [kNullHash] is a constant of
    [flatui/internal/flatui_util.h], as the type [HashedId] is: it is a
    parameter. *)
Definition default (kNullHash : Z) : t :=
  {| font_id_ := kNullHash;
     text_id_ := kNullHash;
     font_size_ := 0;
     size_ := mathfu.kZeros2i;
     flags_value_ := 0 |}.

(** [FontBufferParameters(font_id, text_id, font_size, size,
    text_alignment, glyph_flags, caret_info)].  The body assigns the
    three bit-fields and never writes [flags_value_] as a whole:
    [storage] is what the four bytes of the union held before.
    [glyph_flags] is a value of [enum GlyphFlags] of
    [flatui/internal/glyph_cache.h], the integer that goes into the two-bit
    field. *)
Definition make (storage : Z)
    (font_id text_id font_size : Z) (size : mathfu.vec2i)
    (text_alignment glyph_flags : Z) (caret_info : bool) : t :=
  {| font_id_ := font_id;
     text_id_ := text_id;
     font_size_ := font_size;
     size_ := size;
     flags_value_ :=
       store_caret_info caret_info
         (store_glyph_flags glyph_flags
            (store_text_alignement text_alignment storage)) |}.

(** [operator==] *)
Definition operator_eq (this other : t) : bool :=
  (font_id_ this =? font_id_ other) &&
  (text_id_ this =? text_id_ other) &&
  Float32.eqb (font_size_ this) (font_size_ other) &&
  (mathfu.x (size_ this) =? mathfu.x (size_ other)) &&
  (mathfu.y (size_ this) =? mathfu.y (size_ other)) &&
  (flags_value_ this =? flags_value_ other).

Definition get_text_id (this : t) : Z := text_id_ this.
Definition get_size (this : t) : mathfu.vec2i := size_ this.
Definition get_font_size (this : t) : Z := font_size_ this.

Definition get_text_alignment (this : t) : Z :=
  BitField.load text_alignement_shift text_alignement_width
    (flags_value_ this).

Definition get_glyph_flags (this : t) : Z :=
  BitField.load glyph_flags_shift glyph_flags_width (flags_value_ this).

Definition get_caret_info_flag (this : t) : bool :=
  negb (BitField.load caret_info_shift caret_info_width
          (flags_value_ this) =? 0).

(** [get_line_length]: the product is an [int32_t] product. *)
Definition get_line_length (this : t) : Z :=
  let alignment := get_text_alignment this in
  if (alignment =? kTextAlignmentLeft) || (alignment =? kTextAlignmentCenter)
  then 0
  else mul_int32_t (mathfu.x (size_ this)) kFreeTypeUnit.

(** [get_multi_line_setting] *)
Definition get_multi_line_setting (this : t) : bool :=
  if mathfu.x (size_ this) =? 0 then false
  else if negb (get_text_alignment this =? kTextAlignmentLeft) then true
  else (mathfu.y (size_ this) =? 0)
       || Float32.int32_gtb (mathfu.y (size_ this)) (font_size_ this).

(** [operator()]: the hash used by the two [unordered_map]s.  The first
    line reads [font_id_] and [text_id_] of the hasher object itself, the
    rest reads the key.  [std::hash<float>] and [std::hash<int32_t>]
    belong to the C++ library and [HashedId] to [flatui_util.h]: they
    are parameters. *)
Section Hash.
Variable hashed_id_bits : Z.
Variable std_hash_float : Z -> Z.
Variable std_hash_int32_t : Z -> Z.

(** One line of the hash, [value ^ (h << 1) >> 1]: the shifts bind tighter
    than the exclusive or and are done on a [size_t]. *)
Definition mix (value h : Z) : Z :=
  Z.lxor value (Z.shiftr (to_size_t (Z.shiftl h 1)) 1).

Definition operator_call (this key : t) : Z :=
  let value :=
    Z.shiftr
      (to_unsigned hashed_id_bits
         (Z.lxor (font_id_ this)
            (to_unsigned hashed_id_bits (Z.shiftl (text_id_ this) 1))))
      1 in
  let value := mix value (std_hash_float (font_size_ key)) in
  let value :=
    mix value (std_hash_int32_t (to_int32_t (flags_value_ key))) in
  let value := mix value (std_hash_int32_t (mathfu.x (size_ key))) in
  let value := mix value (std_hash_int32_t (mathfu.y (size_ key))) in
  value.
End Hash.

End FontBufferParameters.

(** ** FontMetrics *)

Module FontMetrics.

Record t : Type := Build {
  base_line_ : Z;
  internal_leading_ : Z;
  ascender_ : Z;
  descender_ : Z;
  external_leading_ : Z
}.

(** [FontMetrics()] *)
Definition default : t := Build 0 0 0 0 0.

(** [FontMetrics(base_line, internal_leading, ascender, descender,
    external_leading)] *)
Definition make (base_line internal_leading ascender descender
                 external_leading : Z) : option t :=
  let this :=
    Build base_line internal_leading ascender descender external_leading in
  assert (internal_leading >=? 0) ;;;
  assert (ascender >=? 0) ;;;
  assert (descender <=? 0) ;;;
  assert (external_leading <=? 0) ;;;
  Some this.

Definition base_line (this : t) : Z := base_line_ this.
Definition internal_leading (this : t) : Z := internal_leading_ this.
Definition ascender (this : t) : Z := ascender_ this.
Definition descender (this : t) : Z := descender_ this.
Definition external_leading (this : t) : Z := external_leading_ this.

Definition set_base_line (base_line : Z) (this : t) : option t :=
  Some (Build base_line (internal_leading_ this) (ascender_ this)
          (descender_ this) (external_leading_ this)).

Definition set_internal_leading (internal_leading : Z) (this : t)
  : option t :=
  assert (internal_leading >=? 0) ;;;
  Some (Build (base_line_ this) internal_leading (ascender_ this)
          (descender_ this) (external_leading_ this)).

Definition set_ascender (ascender : Z) (this : t) : option t :=
  assert (ascender >=? 0) ;;;
  Some (Build (base_line_ this) (internal_leading_ this) ascender
          (descender_ this) (external_leading_ this)).

Definition set_descender (descender : Z) (this : t) : option t :=
  assert (descender <=? 0) ;;;
  Some (Build (base_line_ this) (internal_leading_ this) (ascender_ this)
          descender (external_leading_ this)).

Definition set_external_leading (external_leading : Z) (this : t)
  : option t :=
  assert (external_leading <=? 0) ;;;
  Some (Build (base_line_ this) (internal_leading_ this) (ascender_ this)
          (descender_ this) external_leading).

(** [total]: three [int32_t] operations, left to right. *)
Definition total (this : t) : Z :=
  sub_int32_t
    (sub_int32_t (add_int32_t (internal_leading_ this) (ascender_ this))
       (descender_ this))
    (external_leading_ this).

(** The total height as an unbounded integer. *)
Definition exact_total (this : t) : Z :=
  internal_leading_ this + ascender_ this
  - descender_ this - external_leading_ this.

(** The sign constraints of the four leading and extent fields. *)
Definition sign_constraints (this : t) : Prop :=
  0 <= internal_leading_ this /\ 0 <= ascender_ this /\
  descender_ this <= 0 /\ external_leading_ this <= 0.

(** A call of one of the five setters. *)
Inductive update : Type :=
| SetBaseLine (base_line : Z)
| SetInternalLeading (internal_leading : Z)
| SetAscender (ascender : Z)
| SetDescender (descender : Z)
| SetExternalLeading (external_leading : Z).

Definition apply (u : update) (this : t) : option t :=
  match u with
  | SetBaseLine v => set_base_line v this
  | SetInternalLeading v => set_internal_leading v this
  | SetAscender v => set_ascender v this
  | SetDescender v => set_descender v this
  | SetExternalLeading v => set_external_leading v this
  end.

(** The argument of the update breaks the sign constraint of the field it
    sets. *)
Definition violates (u : update) : Prop :=
  match u with
  | SetBaseLine _ => False
  | SetInternalLeading v => v < 0
  | SetAscender v => v < 0
  | SetDescender v => 0 < v
  | SetExternalLeading v => 0 < v
  end.

(** A sequence of setter calls; the first failed assertion ends it. *)
Fixpoint run (us : list update) (this : t) : option t :=
  match us with
  | [] => Some this
  | u :: rest => this' <- apply u this ;; run rest this'
  end.

(** The objects a program can hold: built by a constructor, then changed
    by setters whose assertions passed. *)
Inductive reachable : t -> Prop :=
| reachable_default : reachable default
| reachable_make : forall b il a d el this,
    make b il a d el = Some this -> reachable this
| reachable_apply : forall u this this',
    reachable this -> apply u this = Some this' -> reachable this'.

(** An update that does not shrink the magnitude of [internal_leading] or
    [ascender] and does not grow the magnitude of [descender] or
    [external_leading]. *)
Definition magnitude_step (this : t) (u : update) : bool :=
  match u with
  | SetBaseLine _ => true
  | SetInternalLeading v => Z.abs (internal_leading_ this) <=? Z.abs v
  | SetAscender v => Z.abs (ascender_ this) <=? Z.abs v
  | SetDescender v => Z.abs v <=? Z.abs (descender_ this)
  | SetExternalLeading v => Z.abs v <=? Z.abs (external_leading_ this)
  end.

(** An update that makes the glyph box no smaller: [internal_leading] and
    [ascender] do not decrease, [descender] and [external_leading] do not
    increase (they are non-positive, so their magnitudes do not
    shrink). *)
Definition growth_step (this : t) (u : update) : bool :=
  match u with
  | SetBaseLine _ => true
  | SetInternalLeading v => internal_leading_ this <=? v
  | SetAscender v => ascender_ this <=? v
  | SetDescender v => v <=? descender_ this
  | SetExternalLeading v => v <=? external_leading_ this
  end.

(** Every update of the sequence satisfies [ok] in the state it is
    applied to. *)
Fixpoint all_steps (ok : t -> update -> bool) (us : list update)
    (this : t) : bool :=
  match us with
  | [] => true
  | u :: rest =>
      ok this u &&
      match apply u this with
      | Some this' => all_steps ok rest this'
      | None => false
      end
  end.

End FontMetrics.

(** ** std::vector

    The element list and the capacity.  [reserve] and [push_back] follow
    libstdc++: [reserve n] makes the capacity exactly [n] when it grows,
    [push_back] doubles a full vector. *)

Module vector.

Record t (A : Type) : Type := Build { data : list A; capacity : Z }.
Arguments Build {A} _ _.
Arguments data {A} _.
Arguments capacity {A} _.

Definition empty {A : Type} : t A := Build [] 0.

Definition size {A : Type} (v : t A) : Z := Z.of_nat (length (data v)).

(** [max_size()] for elements of [elt_bytes] bytes on an LP64 target. *)
Definition max_size (elt_bytes : Z) : Z := (2 ^ 63 - 1) / elt_bytes.

Definition reserve {A : Type} (n : Z) (v : t A) : t A :=
  if capacity v <? n then Build (data v) n else v.

Definition push_back {A : Type} (a : A) (v : t A) : t A :=
  Build (data v ++ [a])
    (if size v <? capacity v then capacity v
     else Z.max 1 (2 * capacity v)).

(** [v[index]]; [None] is an access past the last element. *)
Definition subscript {A : Type} (v : t A) (index : Z) : option A :=
  if (0 <=? index) && (index <? size v)
  then nth_error (data v) (Z.to_nat index)
  else None.

End vector.

(** ** FontVertex *)

Record FontVertex : Type := Build_FontVertex {
  position_ : Z * Z * Z;
  uv_ : Z * Z
}.

Definition FontVertex_make (x y z u v : Z) : FontVertex :=
  {| position_ := (x, y, z); uv_ := (u, v) |}.

(** ** FontBuffer *)

Module FontBuffer.

Definition kIndiciesPerCodePoint : Z := 6.
Definition kVerticesPerCodePoint : Z := 4.

Record t : Type := Build {
  metrics_ : FontMetrics.t;
  indices_ : vector.t Z;
  vertices_ : vector.t FontVertex;
  code_points_ : vector.t Z;
  caret_positions_ : vector.t mathfu.vec2i;
  word_boundary_ : vector.t Z;
  word_boundary_caret_ : vector.t Z;
  size_ : mathfu.vec2i;
  revision_ : Z;
  pass_ : Z;
  line_start_index_ : Z;
  line_start_caret_index_ : Z
}.

(** [FontBuffer()].  Neither constructor initialises [size_] or [pass_]:
    [size0] and [pass0] are what their storage held. *)
Definition default (size0 : mathfu.vec2i) (pass0 : Z) : t :=
  {| metrics_ := FontMetrics.default;
     indices_ := vector.empty;
     vertices_ := vector.empty;
     code_points_ := vector.empty;
     caret_positions_ := vector.empty;
     word_boundary_ := vector.empty;
     word_boundary_caret_ := vector.empty;
     size_ := size0;
     revision_ := 0;
     pass_ := pass0;
     line_start_index_ := 0;
     line_start_caret_index_ := 0 |}.

(** [FontBuffer(size, caret_info)]; [size] is a [uint32_t], and so are
    the three products and the sum handed to [reserve]. *)
Definition make (size0 : mathfu.vec2i) (pass0 : Z)
    (size : Z) (caret_info : bool) : t :=
  let this := default size0 pass0 in
  {| metrics_ := metrics_ this;
     indices_ :=
       vector.reserve (mul_uint32_t size kIndiciesPerCodePoint)
         (indices_ this);
     vertices_ :=
       vector.reserve (mul_uint32_t size kVerticesPerCodePoint)
         (vertices_ this);
     code_points_ := vector.reserve size (code_points_ this);
     caret_positions_ :=
       if caret_info
       then vector.reserve (add_uint32_t size 1) (caret_positions_ this)
       else caret_positions_ this;
     word_boundary_ := word_boundary_ this;
     word_boundary_caret_ := word_boundary_caret_ this;
     size_ := size_ this;
     revision_ := revision_ this;
     pass_ := pass_ this;
     line_start_index_ := line_start_index_ this;
     line_start_caret_index_ := line_start_caret_index_ this |}.

Definition metrics (this : t) : FontMetrics.t := metrics_ this.
Definition get_indices (this : t) : vector.t Z := indices_ this.
Definition get_vertices (this : t) : vector.t FontVertex := vertices_ this.
Definition get_code_points (this : t) : vector.t Z := code_points_ this.
Definition get_size (this : t) : mathfu.vec2i := size_ this.
Definition get_revision (this : t) : Z := revision_ this.
Definition get_pass (this : t) : Z := pass_ this.

Definition set_metrics (metrics : FontMetrics.t) (this : t) : t :=
  Build metrics (indices_ this) (vertices_ this) (code_points_ this)
    (caret_positions_ this) (word_boundary_ this)
    (word_boundary_caret_ this) (size_ this) (revision_ this) (pass_ this)
    (line_start_index_ this) (line_start_caret_index_ this).

Definition set_size (size : mathfu.vec2i) (this : t) : t :=
  Build (metrics_ this) (indices_ this) (vertices_ this) (code_points_ this)
    (caret_positions_ this) (word_boundary_ this)
    (word_boundary_caret_ this) size (revision_ this) (pass_ this)
    (line_start_index_ this) (line_start_caret_index_ this).

Definition set_revision (revision : Z) (this : t) : t :=
  Build (metrics_ this) (indices_ this) (vertices_ this) (code_points_ this)
    (caret_positions_ this) (word_boundary_ this)
    (word_boundary_caret_ this) (size_ this) revision (pass_ this)
    (line_start_index_ this) (line_start_caret_index_ this).

Definition set_pass (pass : Z) (this : t) : t :=
  Build (metrics_ this) (indices_ this) (vertices_ this) (code_points_ this)
    (caret_positions_ this) (word_boundary_ this)
    (word_boundary_caret_ this) (size_ this) (revision_ this) pass
    (line_start_index_ this) (line_start_caret_index_ this).

(** [AddCodepoint] *)
Definition AddCodepoint (codepoint : Z) (this : t) : t :=
  Build (metrics_ this) (indices_ this) (vertices_ this)
    (vector.push_back codepoint (code_points_ this))
    (caret_positions_ this) (word_boundary_ this)
    (word_boundary_caret_ this) (size_ this) (revision_ this) (pass_ this)
    (line_start_index_ this) (line_start_caret_index_ this).

(** [Verify]: two assertions, then [true]; the buffer is handed back as
    it was. *)
Definition Verify (this : t) : option (bool * t) :=
  assert (vector.size (vertices_ this) =?
          mul_size_t (vector.size (code_points_ this))
            kVerticesPerCodePoint) ;;;
  assert (vector.size (indices_ this) =?
          mul_size_t (vector.size (code_points_ this))
            kIndiciesPerCodePoint) ;;;
  Some (true, this).

(** [GetCaretPosition] *)
Definition GetCaretPosition (this : t) (index : Z)
  : option mathfu.vec2i :=
  if (vector.capacity (caret_positions_ this) =? 0)
     || (vector.size (caret_positions_ this) <? index)
  then Some kCaretPositionInvalid
  else vector.subscript (caret_positions_ this) index.

Definition GetCaretPositions (this : t) : vector.t mathfu.vec2i :=
  caret_positions_ this.

(** [HasCaretPositions] *)
Definition HasCaretPositions (this : t) : bool :=
  negb (vector.capacity (caret_positions_ this) =? 0).

(** The two array-length equations that [Verify] asserts. *)
Definition lengths_agree (this : t) : Prop :=
  vector.size (vertices_ this) = 4 * vector.size (code_points_ this) /\
  vector.size (indices_ this) = 6 * vector.size (code_points_ this).

(** The code-point array is no longer than a [std::vector<uint32_t>] can
    be. *)
Definition within_max_size (this : t) : Prop :=
  vector.size (code_points_ this) <= vector.max_size 4.

(** The inline mutators of the class that leave the caret positions
    alone. *)
Inductive mutation : Type :=
| CallAddCodepoint (codepoint : Z)
| CallSetMetrics (metrics : FontMetrics.t)
| CallSetSize (size : mathfu.vec2i)
| CallSetRevision (revision : Z)
| CallSetPass (pass : Z).

Definition mutate (m : mutation) (this : t) : t :=
  match m with
  | CallAddCodepoint c => AddCodepoint c this
  | CallSetMetrics x => set_metrics x this
  | CallSetSize s => set_size s this
  | CallSetRevision r => set_revision r this
  | CallSetPass p => set_pass p this
  end.

Definition mutate_all (ms : list mutation) (this : t) : t :=
  fold_left (fun b m => mutate m b) ms this.

End FontBuffer.

(** ** FontManager

    The header declares [GetBuffer], [CreateBuffer], [UpdatePass] and
    [FontBuffer::AddVertices] and holds the bodies of [FlushAndUpdate],
    [StartRenderPass] and [FlushLayout]; the declared functions are defined
    in [font_manager.cpp] and the glyph cache in
    [flatui/internal/glyph_cache.h].  The glyph cache, the layout engine
    and the geometry of a glyph are parameters. *)

Module FontManager.

(** [kRenderPass] *)
Definition kRenderPass : Z := -1.

Section Manager.

(** The glyph cache and its contract: [lookup_or_create code_point
    pixel_size flags] answers with the atlas entry or with a miss ([None])
    when the glyph cannot be placed even after the cache has tried to
    evict; either way the cache may have changed. *)
Variable GlyphCache : Type.
Variable GlyphCacheEntry : Type.
Variable lookup_or_create :
  Z -> Z -> Z -> GlyphCache -> option GlyphCacheEntry * GlyphCache.
Variable Flush : GlyphCache -> GlyphCache.
Variable cache_revision : GlyphCache -> Z.

(** The layout engine: the code points of the glyphs of a text, in
    emission order, and the pixel size the parameters ask for. *)
Variable LayoutText : list Z -> FontBufferParameters.t -> list Z.
Variable pixel_size : FontBufferParameters.t -> Z.

(** The four corners of the quad of a placed glyph. *)
Variable quad :
  GlyphCacheEntry -> FontVertex * FontVertex * FontVertex * FontVertex.

Record t : Type := Build {
  glyph_cache_ : GlyphCache;
  map_buffers_ : list (FontBufferParameters.t * FontBuffer.t);
  current_atlas_revision_ : Z;
  current_pass_ : Z
}.

(** Modelled from the spec: [FontBuffer::AddVertices] is declared in the
    header and defined elsewhere; a glyph contributes four vertices
    (position and UV). *)
Definition AddVertices (entry : GlyphCacheEntry) (buffer : FontBuffer.t)
  : FontBuffer.t :=
  let '(v0, v1, v2, v3) := quad entry in
  let vs := FontBuffer.vertices_ buffer in
  FontBuffer.Build (FontBuffer.metrics_ buffer) (FontBuffer.indices_ buffer)
    (vector.push_back v3
       (vector.push_back v2 (vector.push_back v1 (vector.push_back v0 vs))))
    (FontBuffer.code_points_ buffer) (FontBuffer.caret_positions_ buffer)
    (FontBuffer.word_boundary_ buffer)
    (FontBuffer.word_boundary_caret_ buffer) (FontBuffer.size_ buffer)
    (FontBuffer.revision_ buffer) (FontBuffer.pass_ buffer)
    (FontBuffer.line_start_index_ buffer)
    (FontBuffer.line_start_caret_index_ buffer).

(** Modelled from the spec: the six indices (two triangles) of the glyph
    whose quad starts at vertex [base], pushed through [get_indices()]. *)
Definition AddIndices (base : Z) (buffer : FontBuffer.t) : FontBuffer.t :=
  let ixs := FontBuffer.indices_ buffer in
  let push (k : Z) := vector.push_back (to_unsigned 16 (base + k)) in
  FontBuffer.Build (FontBuffer.metrics_ buffer)
    (push 2 (push 3 (push 1 (push 2 (push 1 (push 0 ixs))))))
    (FontBuffer.vertices_ buffer)
    (FontBuffer.code_points_ buffer) (FontBuffer.caret_positions_ buffer)
    (FontBuffer.word_boundary_ buffer)
    (FontBuffer.word_boundary_caret_ buffer) (FontBuffer.size_ buffer)
    (FontBuffer.revision_ buffer) (FontBuffer.pass_ buffer)
    (FontBuffer.line_start_index_ buffer)
    (FontBuffer.line_start_caret_index_ buffer).

(** Modelled from the spec: one glyph of the string enters the buffer as a
    code point, six indices and four vertices. *)
Definition AddGlyph (code_point : Z) (entry : GlyphCacheEntry)
    (buffer : FontBuffer.t) : FontBuffer.t :=
  let base := vector.size (FontBuffer.vertices_ buffer) in
  AddVertices entry (AddIndices base (FontBuffer.AddCodepoint code_point buffer)).

(** A mutation of a buffer that has completed: the append of one glyph
    with its code point, its indices and its vertices, or a call of one of
    the setters. *)
Inductive completed_mutation : Type :=
| AppendGlyph (code_point : Z) (entry : GlyphCacheEntry)
| SetMetrics (metrics : FontMetrics.t)
| SetSize (size : mathfu.vec2i)
| SetRevision (revision : Z)
| SetPass (pass : Z).

Definition complete (m : completed_mutation) (buffer : FontBuffer.t)
  : FontBuffer.t :=
  match m with
  | AppendGlyph code_point entry => AddGlyph code_point entry buffer
  | SetMetrics metrics => FontBuffer.set_metrics metrics buffer
  | SetSize size => FontBuffer.set_size size buffer
  | SetRevision revision => FontBuffer.set_revision revision buffer
  | SetPass pass => FontBuffer.set_pass pass buffer
  end.

Definition complete_all (ms : list completed_mutation)
    (buffer : FontBuffer.t) : FontBuffer.t :=
  fold_left (fun b m => complete m b) ms buffer.

(** Modelled from the spec: the glyph loop of [CreateBuffer], which is
    declared in the header and defined elsewhere.  Each glyph is looked up
    in the glyph cache; the first miss ends the loop with a miss for the
    whole string. *)
Fixpoint place_glyphs (ysize flags : Z) (glyphs : list Z)
    (cache : GlyphCache) (buffer : FontBuffer.t)
  : option FontBuffer.t * GlyphCache :=
  match glyphs with
  | [] => (Some buffer, cache)
  | code_point :: rest =>
      match lookup_or_create code_point ysize flags cache with
      | (Some entry, cache') =>
          place_glyphs ysize flags rest cache' (AddGlyph code_point entry buffer)
      | (None, cache') => (None, cache')
      end
  end.

(** Modelled from the spec: [CreateBuffer], declared in the header and
    defined elsewhere: lay the text out, place every glyph, stamp the
    buffer with the revision of the glyph cache and the current pass. *)
Definition CreateBuffer (text : list Z) (parameters : FontBufferParameters.t)
    (this : t) : option FontBuffer.t * GlyphCache :=
  let glyphs := LayoutText text parameters in
  let fresh :=
    FontBuffer.make mathfu.kZeros2i (current_pass_ this)
      (to_uint32_t (Z.of_nat (length text)))
      (FontBufferParameters.get_caret_info_flag parameters) in
  match place_glyphs (pixel_size parameters)
          (FontBufferParameters.get_glyph_flags parameters)
          glyphs (glyph_cache_ this) fresh with
  | (Some buffer, cache') =>
      (Some (FontBuffer.set_pass (current_pass_ this)
               (FontBuffer.set_revision (cache_revision cache') buffer)),
       cache')
  | (None, cache') => (None, cache')
  end.

(** The entry of [map_buffers_] whose key compares equal to
    [parameters]. *)
Definition find_buffer (parameters : FontBufferParameters.t)
    (map : list (FontBufferParameters.t * FontBuffer.t))
  : option FontBuffer.t :=
  option_map snd
    (find (fun kv => FontBufferParameters.operator_eq (fst kv) parameters)
       map).

(** The cached buffer for [parameters], if its revision is the current
    revision of the glyph cache. *)
Definition find_current (parameters : FontBufferParameters.t) (this : t)
  : option FontBuffer.t :=
  match find_buffer parameters (map_buffers_ this) with
  | Some buffer =>
      if FontBuffer.revision_ buffer =? cache_revision (glyph_cache_ this)
      then Some buffer else None
  | None => None
  end.

(** Replace the entry with an equal key, or add one. *)
Fixpoint store_buffer (parameters : FontBufferParameters.t)
    (buffer : FontBuffer.t)
    (map : list (FontBufferParameters.t * FontBuffer.t))
  : list (FontBufferParameters.t * FontBuffer.t) :=
  match map with
  | [] => [(parameters, buffer)]
  | (k, b) :: rest =>
      if FontBufferParameters.operator_eq k parameters
      then (k, buffer) :: rest
      else (k, b) :: store_buffer parameters buffer rest
  end.

(** Modelled from the spec: [GetBuffer], declared in the header and
    defined elsewhere.  A cached buffer is returned when its key compares
    equal and its revision is current; otherwise the buffer is built again
    from the text and replaces the stale entry; a miss of any glyph is a
    miss of the call. *)
Definition GetBuffer (text : list Z) (parameters : FontBufferParameters.t)
    (this : t) : option FontBuffer.t * t :=
  match find_current parameters this with
  | Some buffer => (Some buffer, this)
  | None =>
      match CreateBuffer text parameters this with
      | (Some buffer, cache') =>
          (Some buffer,
           Build cache'
             (store_buffer parameters buffer (map_buffers_ this))
             (current_atlas_revision_ this) (current_pass_ this))
      | (None, cache') =>
          (None,
           Build cache' (map_buffers_ this)
             (current_atlas_revision_ this) (current_pass_ this))
      end
  end.

(** Modelled from the spec: [UpdatePass], declared in the header and
    defined elsewhere.  With [start_subpass] it clears the glyph cache and
    starts a further layout pass; without, it uploads the atlas and enters
    the render pass. *)
Definition UpdatePass (start_subpass : bool) (this : t) : t :=
  if start_subpass
  then Build (Flush (glyph_cache_ this)) (map_buffers_ this)
         (current_atlas_revision_ this) (current_pass_ this + 1)
  else Build (glyph_cache_ this) (map_buffers_ this)
         (cache_revision (glyph_cache_ this)) kRenderPass.

(** [FlushAndUpdate] *)
Definition FlushAndUpdate (this : t) : t := UpdatePass true this.

(** [StartRenderPass] *)
Definition StartRenderPass (this : t) : t := UpdatePass false this.

(** [FlushLayout] *)
Definition FlushLayout (this : t) : t :=
  Build (glyph_cache_ this) [] (current_atlas_revision_ this)
    (current_pass_ this).

(** [cache'] is reached from [cache] by glyph lookups alone. *)
Inductive by_lookups (cache : GlyphCache) : GlyphCache -> Prop :=
| by_lookups_refl : by_lookups cache cache
| by_lookups_step : forall cache' code_point ysize flags,
    by_lookups cache cache' ->
    by_lookups cache
      (snd (lookup_or_create code_point ysize flags cache')).

(** The glyph [code_point] of the run [glyphs] is the first one that the
    glyph cache cannot place: the glyphs before it are placed one after
    the other starting from [cache], and the lookup of [code_point] in the
    cache they leave behind is a miss. *)
Fixpoint first_miss (ysize flags : Z) (glyphs : list Z) (cache : GlyphCache)
  : option Z :=
  match glyphs with
  | [] => None
  | code_point :: rest =>
      match lookup_or_create code_point ysize flags cache with
      | (Some _, cache') => first_miss ysize flags rest cache'
      | (None, _) => Some code_point
      end
  end.

End Manager.

End FontManager.

(** ** A glyph cache with room for two glyphs

    A small instance of the glyph cache contract on which the functions of
    [FontManager] can be run: the cache is the list of the code points it
    holds, an entry is the slot number, and a glyph that is not cached is
    placed while fewer than two slots are taken. *)

Module TwoSlotCache.

Definition GlyphCache : Type := list Z.
Definition GlyphCacheEntry : Type := Z.

Fixpoint slot_of (code_point : Z) (cache : list Z) (slot : Z) : option Z :=
  match cache with
  | [] => None
  | c :: rest =>
      if c =? code_point then Some slot
      else slot_of code_point rest (slot + 1)
  end.

Definition lookup_or_create (code_point ysize flags : Z)
    (cache : GlyphCache) : option GlyphCacheEntry * GlyphCache :=
  match slot_of code_point cache 0 with
  | Some slot => (Some slot, cache)
  | None =>
      if Z.of_nat (length cache) <? 2
      then (Some (Z.of_nat (length cache)), cache ++ [code_point])
      else (None, cache)
  end.

Definition Flush (cache : GlyphCache) : GlyphCache := [].
Definition cache_revision (cache : GlyphCache) : Z := 0.
Definition LayoutText (text : list Z) (parameters : FontBufferParameters.t)
  : list Z := text.
Definition pixel_size (parameters : FontBufferParameters.t) : Z := 32.
Definition quad (entry : GlyphCacheEntry)
  : FontVertex * FontVertex * FontVertex * FontVertex :=
  (FontVertex_make 0 0 0 entry 0, FontVertex_make 0 0 0 entry 0,
   FontVertex_make 0 0 0 entry 0, FontVertex_make 0 0 0 entry 0).

Definition manager : Type := FontManager.t GlyphCache.

Definition GetBuffer :=
  FontManager.GetBuffer GlyphCache GlyphCacheEntry lookup_or_create
    cache_revision LayoutText pixel_size quad.

Definition idle : manager :=
  FontManager.Build GlyphCache [] [] 0 0.

End TwoSlotCache.

(** ** TextLayoutDirection *)

Inductive TextLayoutDirection : Type :=
| kTextLayoutDirectionLTR
| kTextLayoutDirectionRTL
| kTextLayoutDirectionTTB.

(** The values the header gives the enumerators. *)
Definition TextLayoutDirection_value (direction : TextLayoutDirection) : Z :=
  match direction with
  | kTextLayoutDirectionLTR => 0
  | kTextLayoutDirectionRTL => 1
  | kTextLayoutDirectionTTB => 2
  end.

(** [d1 == d2] on two directions. *)
Definition TextLayoutDirection_eqb (d1 d2 : TextLayoutDirection) : bool :=
  TextLayoutDirection_value d1 =? TextLayoutDirection_value d2.

(** ** FontManager: the layout direction

    [SetLayoutDirection], [GetLayoutDirection] and [FlushLayout] are
    defined in the header.  They touch the buffer cache [map_buffers_] and
    the member [layout_direction_]; [fplbase::LogError] is the logging call
    of the rendering library, and what it is given is collected in a
    log. *)

Module FontManagerLayout.

Import String.

(** The text that [SetLayoutDirection] logs. *)
Definition ttb_not_supported : string :=
  "TextLayoutDirectionTTB is not supported yet."%string.

Section Layout.

Variable GlyphCache : Type.

Record t : Type := Build {
  manager_ : FontManager.t GlyphCache;
  layout_direction_ : TextLayoutDirection;
  log_ : list string
}.

(** [FlushLayout] *)
Definition FlushLayout (this : t) : t :=
  Build (FontManager.FlushLayout GlyphCache (manager_ this))
    (layout_direction_ this) (log_ this).

(** [SetLayoutDirection] *)
Definition SetLayoutDirection (direction : TextLayoutDirection) (this : t)
  : t :=
  if TextLayoutDirection_eqb direction kTextLayoutDirectionTTB
  then Build (manager_ this) (layout_direction_ this)
         (log_ this ++ [ttb_not_supported])
  else
    let this' :=
      if negb (TextLayoutDirection_eqb direction (layout_direction_ this))
      then FlushLayout this else this in
    Build (manager_ this') direction (log_ this').

(** [GetLayoutDirection] *)
Definition GetLayoutDirection (this : t) : TextLayoutDirection :=
  layout_direction_ this.

(** A sequence of [SetLayoutDirection] calls. *)
Definition SetLayoutDirections (directions : list TextLayoutDirection)
    (this : t) : t :=
  fold_left (fun m d => SetLayoutDirection d m) directions this.

(** The buffer cache of the manager. *)
Definition map_buffers (this : t)
  : list (FontBufferParameters.t * FontBuffer.t) :=
  FontManager.map_buffers_ GlyphCache (manager_ this).

End Layout.

(** The direction that a sequence of requests asks for: the last one that
    is not [kTextLayoutDirectionTTB], and [current] if there is none. *)
Definition last_supported (directions : list TextLayoutDirection)
    (current : TextLayoutDirection) : TextLayoutDirection :=
  fold_left
    (fun c d =>
       match d with
       | kTextLayoutDirectionTTB => c
       | _ => d
       end)
    directions current.

(** How often a sequence of requests asks for [kTextLayoutDirectionTTB]. *)
Definition count_ttb (directions : list TextLayoutDirection) : nat :=
  List.length
    (filter (fun d => TextLayoutDirection_eqb d kTextLayoutDirectionTTB)
       directions).

(** Every request of the sequence is for [kTextLayoutDirectionTTB] or for
    the direction [current]. *)
Definition asks_nothing_new (directions : list TextLayoutDirection)
    (current : TextLayoutDirection) : bool :=
  forallb
    (fun d =>
       TextLayoutDirection_eqb d kTextLayoutDirectionTTB
       || TextLayoutDirection_eqb d current)
    directions.

End FontManagerLayout.

(** ** FontShader

    The class keeps a pointer to a [fplbase::Shader] and the handles of
    four uniforms.  The shader, the values of a uniform and
    [Shader::FindUniform] belong to the rendering library: they are
    parameters, a handle is the integer that the setters compare with 0,
    and a call of [Shader::SetUniform] is recorded as the call it is.  The
    class has no constructor: a FontShader is whatever its storage held
    until [set] is called. *)

Module FontShader.

Import String.

Section Shader.

Variable Shader : Type.
Variable Value : Type.
Variable FindUniform : Shader -> string -> Z.

(** [shader_] is a pointer: [None] is the null pointer. *)
Record t : Type := Build {
  shader_ : option Shader;
  pos_offset_ : Z;
  color_ : Z;
  clipping_ : Z;
  threshold_ : Z
}.

(** A call [shader->SetUniform(handle, value)]. *)
Inductive call : Type :=
| SetUniform (shader : Shader) (handle : Z) (value : Value).

(** [set] *)
Definition set (shader : option Shader) (this : t) : option t :=
  assert (match shader with Some _ => true | None => false end) ;;;
  match shader with
  | Some s =>
      Some (Build shader (FindUniform s "pos_offset"%string)
              (FindUniform s "color"%string)
              (FindUniform s "clipping"%string)
              (FindUniform s "threshold"%string))
  | None => None
  end.

(** A setter body: the assertion on the handle, then the call through
    [shader_]; through a null [shader_] there is no defined call. *)
Definition set_uniform (handle : Z) (value : Value) (this : t)
  : option call :=
  assert (handle >=? 0) ;;;
  match shader_ this with
  | Some s => Some (SetUniform s handle value)
  | None => None
  end.

(** [set_position_offset] *)
Definition set_position_offset (vec : Value) (this : t) : option call :=
  set_uniform (pos_offset_ this) vec this.

(** [set_color] *)
Definition set_color (vec : Value) (this : t) : option call :=
  set_uniform (color_ this) vec this.

(** [set_clipping] *)
Definition set_clipping (vec : Value) (this : t) : option call :=
  set_uniform (clipping_ this) vec this.

(** [set_threshold] *)
Definition set_threshold (f : Value) (this : t) : option call :=
  set_uniform (threshold_ this) f this.

(** The four setters by the name of the uniform they write. *)
Inductive setter : Type :=
| SetPositionOffset
| SetColor
| SetClipping
| SetThreshold.

Definition uniform_name (which : setter) : string :=
  match which with
  | SetPositionOffset => "pos_offset"%string
  | SetColor => "color"%string
  | SetClipping => "clipping"%string
  | SetThreshold => "threshold"%string
  end.

Definition call_setter (which : setter) (value : Value) (this : t)
  : option call :=
  match which with
  | SetPositionOffset => set_position_offset value this
  | SetColor => set_color value this
  | SetClipping => set_clipping value this
  | SetThreshold => set_threshold value this
  end.

End Shader.

End FontShader.

(* ================================================================== *)
(** * Properties *)
(* ================================================================== *)

(** ** Fixed-width integers *)

Lemma to_int32_t_id (x : Z) : is_int32_t x -> to_int32_t x = x.
Proof.
  unfold is_int32_t, to_int32_t, to_signed. intros H.
  change (2 ^ (32 - 1)) with 2147483648 in *.
  change (2 ^ 32) with 4294967296.
  change (2 ^ 31) with 2147483648 in H.
  rewrite Z.mod_small by lia. lia.
Qed.

Lemma to_int32_t_range (x : Z) : is_int32_t (to_int32_t x).
Proof.
  unfold is_int32_t, to_int32_t, to_signed.
  change (2 ^ (32 - 1)) with 2147483648.
  change (2 ^ 32) with 4294967296.
  change (2 ^ 31) with 2147483648.
  pose proof (Z.mod_pos_bound (x + 2147483648) 4294967296). lia.
Qed.


Lemma to_size_t_id (x : Z) : 0 <= x < 2 ^ 64 -> to_size_t x = x.
Proof. intros H. now apply Z.mod_small. Qed.

(** ** Bit-fields *)

Lemma testbit_ones (w i : Z) :
  0 <= w -> Z.testbit (Z.ones w) i = (0 <=? i) && (i <? w).
Proof.
  intros Hw.
  destruct (Z.leb_spec 0 i) as [Hi | Hi]; cbn [andb].
  - destruct (Z.ltb_spec i w).
    + apply Z.ones_spec_low; lia.
    + apply Z.ones_spec_high; lia.
  - now apply Z.testbit_neg_r.
Qed.

Lemma testbit_mask (s w i : Z) :
  0 <= s -> 0 <= w ->
  Z.testbit (BitField.mask s w) i = (s <=? i) && (i <? s + w).
Proof.
  intros Hs Hw. unfold BitField.mask.
  destruct (Z.leb_spec 0 i) as [Hi | Hi].
  - rewrite Z.shiftl_spec by assumption.
    rewrite testbit_ones by assumption. lia.
  - rewrite Z.testbit_neg_r by assumption. lia.
Qed.

Lemma testbit_load (s w word i : Z) :
  0 <= s -> 0 <= w -> 0 <= i ->
  Z.testbit (BitField.load s w word) i = Z.testbit word (i + s) && (i <? w).
Proof.
  intros Hs Hw Hi. unfold BitField.load.
  rewrite Z.land_spec, Z.shiftr_spec, testbit_ones by assumption.
  destruct (Z.leb_spec 0 i); [reflexivity | lia].
Qed.

Lemma testbit_store (s w v word i : Z) :
  0 <= s -> 0 <= w -> 0 <= i ->
  Z.testbit (BitField.store s w v word) i =
  if (s <=? i) && (i <? s + w) then Z.testbit v (i - s) else Z.testbit word i.
Proof.
  intros Hs Hw Hi. unfold BitField.store.
  rewrite Z.lor_spec, !Z.land_spec, Z.lnot_spec, Z.shiftl_spec by assumption.
  rewrite testbit_mask by assumption.
  destruct ((s <=? i) && (i <? s + w)); cbn [negb].
  - now rewrite Bool.andb_false_r, Bool.andb_true_r.
  - now rewrite Bool.andb_true_r, Bool.andb_false_r, Bool.orb_false_r.
Qed.

(** Reading a bit-field gives back what was stored, cut to the width. *)
Lemma load_store_same (s w v word : Z) :
  0 <= s -> 0 <= w ->
  BitField.load s w (BitField.store s w v word) = v mod 2 ^ w.
Proof.
  intros Hs Hw. rewrite <- Z.land_ones by assumption.
  apply Z.bits_inj'. intros i Hi.
  rewrite testbit_load, testbit_store, Z.land_spec, testbit_ones by lia.
  replace (i + s - s) with i by lia.
  replace ((s <=? i + s) && (i + s <? s + w)) with (i <? w) by lia.
  replace (0 <=? i) with true by lia.
  destruct (i <? w); cbn; [now rewrite Bool.andb_true_r |].
  now rewrite !Bool.andb_false_r.
Qed.

(** Storing to a bit-field leaves a disjoint bit-field as it was. *)
Lemma load_store_other (s w s' w' v word : Z) :
  0 <= s -> 0 <= w -> 0 <= s' -> 0 <= w' ->
  s + w <= s' \/ s' + w' <= s ->
  BitField.load s w (BitField.store s' w' v word) = BitField.load s w word.
Proof.
  intros Hs Hw Hs' Hw' Hdis.
  apply Z.bits_inj'. intros i Hi.
  rewrite !testbit_load, testbit_store by lia.
  destruct (Z.ltb_spec i w); [| now rewrite !Bool.andb_false_r].
  replace ((s' <=? i + s) && (i + s <? s' + w')) with false by lia.
  reflexivity.
Qed.

(** A bit outside a bit-field survives a store to it. *)
Lemma store_keeps_bit (s w v word i : Z) :
  0 <= s -> 0 <= w -> s + w <= i ->
  Z.testbit (BitField.store s w v word) i = Z.testbit word i.
Proof.
  intros Hs Hw Hi. rewrite testbit_store by lia.
  replace ((s <=? i) && (i <? s + w)) with false by lia.
  reflexivity.
Qed.

Lemma load_range (s w word : Z) :
  0 <= w -> 0 <= BitField.load s w word < 2 ^ w.
Proof.
  intros Hw. unfold BitField.load. rewrite Z.land_ones by assumption.
  apply Z.mod_pos_bound. now apply Z.pow_pos_nonneg.
Qed.

(** ** FontBufferParameters: the bit-fields behind [flags_value_] *)

Import FontBufferParameters(font_id_, text_id_, font_size_, size_, flags_value_).

(** The constructor stores the alignment it is given, cut to three bits,
    whatever the storage held. *)
Lemma get_text_alignment_make storage font_id text_id font_size size
    alignment glyph_flags caret_info :
  FontBufferParameters.get_text_alignment
    (FontBufferParameters.make storage font_id text_id font_size size
       alignment glyph_flags caret_info) = alignment mod 8.
Proof.
  unfold FontBufferParameters.get_text_alignment, FontBufferParameters.make,
    FontBufferParameters.store_caret_info,
    FontBufferParameters.store_glyph_flags,
    FontBufferParameters.store_text_alignement.
  cbn [flags_value_].
  rewrite !load_store_other by (cbv; intuition congruence).
  now rewrite load_store_same by (cbv; congruence).
Qed.

Lemma get_glyph_flags_make storage font_id text_id font_size size
    alignment glyph_flags caret_info :
  FontBufferParameters.get_glyph_flags
    (FontBufferParameters.make storage font_id text_id font_size size
       alignment glyph_flags caret_info) = glyph_flags mod 4.
Proof.
  unfold FontBufferParameters.get_glyph_flags, FontBufferParameters.make,
    FontBufferParameters.store_caret_info,
    FontBufferParameters.store_glyph_flags,
    FontBufferParameters.store_text_alignement.
  cbn [flags_value_].
  rewrite load_store_other by (cbv; intuition congruence).
  now rewrite load_store_same by (cbv; congruence).
Qed.

Lemma get_caret_info_flag_make storage font_id text_id font_size size
    alignment glyph_flags caret_info :
  FontBufferParameters.get_caret_info_flag
    (FontBufferParameters.make storage font_id text_id font_size size
       alignment glyph_flags caret_info) = caret_info.
Proof.
  unfold FontBufferParameters.get_caret_info_flag, FontBufferParameters.make,
    FontBufferParameters.store_caret_info.
  cbn [flags_value_].
  rewrite load_store_same by (cbv; congruence).
  now destruct caret_info.
Qed.

(** The constructor leaves bit 6 and every higher bit of the flags word as
    the storage had them. *)
Lemma make_keeps_storage_bit storage font_id text_id font_size size
    alignment glyph_flags caret_info i :
  6 <= i ->
  Z.testbit
    (flags_value_
       (FontBufferParameters.make storage font_id text_id font_size size
          alignment glyph_flags caret_info)) i = Z.testbit storage i.
Proof.
  intros Hi.
  unfold FontBufferParameters.make, FontBufferParameters.store_caret_info,
    FontBufferParameters.store_glyph_flags,
    FontBufferParameters.store_text_alignement.
  cbn [flags_value_].
  rewrite !store_keeps_bit; try reflexivity;
    unfold FontBufferParameters.caret_info_shift,
      FontBufferParameters.caret_info_width,
      FontBufferParameters.glyph_flags_shift,
      FontBufferParameters.glyph_flags_width,
      FontBufferParameters.text_alignement_shift,
      FontBufferParameters.text_alignement_width; lia.
Qed.

(** An alignment of three bits is [kTextAlignmentLeft] or
    [kTextAlignmentCenter] exactly when it carries neither the right nor
    the justify flag. *)
Lemma left_or_center_iff (alignment : Z) :
  0 <= alignment < 8 ->
  (alignment =? kTextAlignmentLeft) || (alignment =? kTextAlignmentCenter) =
  negb (right_variant alignment || justify_variant alignment).
Proof.
  intros H.
  assert (alignment = 0 \/ alignment = 1 \/ alignment = 2 \/ alignment = 3 \/
          alignment = 4 \/ alignment = 5 \/ alignment = 6 \/ alignment = 7)
    as Hcases by lia.
  repeat (destruct Hcases as [-> | Hcases]; [reflexivity |]).
  now subst.
Qed.

Lemma get_text_alignment_range (p : FontBufferParameters.t) :
  0 <= FontBufferParameters.get_text_alignment p < 8.
Proof.
  unfold FontBufferParameters.get_text_alignment.
  apply (load_range FontBufferParameters.text_alignement_shift 3). lia.
Qed.

(** ** C5: [get_line_length] *)

(** C5.  For every [FontBufferParameters], [get_line_length] returns 0
    unless the text alignment is a right or justify variant (it carries the
    [kTextAlignmentRight] or the [kTextAlignmentJustify] flag), and
    otherwise the requested width times [kFreeTypeUnit], the [int32_t]
    product [size_.x() * 64]; in particular it returns 0 for left and for
    center alignment, it returns the product for each of
    [kTextAlignmentRight], [kTextAlignmentJustify],
    [kTextAlignmentLeftJustify], [kTextAlignmentRightJustify] and
    [kTextAlignmentCenterJustify], and the product is the integer
    [width * 64] whenever that fits an [int32_t]. *)
Theorem get_line_length_by_alignment (p : FontBufferParameters.t) :
  let alignment := FontBufferParameters.get_text_alignment p in
  let width := mathfu.x (size_ p) in
  (right_variant alignment || justify_variant alignment = false ->
   FontBufferParameters.get_line_length p = 0) /\
  (right_variant alignment || justify_variant alignment = true ->
   FontBufferParameters.get_line_length p = mul_int32_t width kFreeTypeUnit) /\
  (alignment = kTextAlignmentLeft \/ alignment = kTextAlignmentCenter ->
   FontBufferParameters.get_line_length p = 0) /\
  (In alignment
     [kTextAlignmentRight; kTextAlignmentJustify; kTextAlignmentLeftJustify;
      kTextAlignmentRightJustify; kTextAlignmentCenterJustify] ->
   FontBufferParameters.get_line_length p = mul_int32_t width kFreeTypeUnit) /\
  (is_int32_t (width * 64) -> mul_int32_t width kFreeTypeUnit = width * 64).
Proof.
  intros alignment width.
  pose proof (get_text_alignment_range p) as Hrange.
  pose proof (left_or_center_iff alignment Hrange) as Hiff.
  unfold FontBufferParameters.get_line_length.
  fold alignment. fold width.
  repeat split.
  - intros Hv. rewrite Hiff, Hv. reflexivity.
  - intros Hv. rewrite Hiff, Hv. reflexivity.
  - intros [Ha | Ha]; rewrite Ha; reflexivity.
  - intros Hin. cbn [In] in Hin.
    destruct Hin as [Ha | [Ha | [Ha | [Ha | [Ha | []]]]]];
      rewrite <- Ha; reflexivity.
  - intros Hfit. unfold mul_int32_t, kFreeTypeUnit.
    now apply to_int32_t_id.
Qed.

(** [get_line_length] on a right-justified request 100 pixels wide, and on
    a centered one. *)
Lemma get_line_length_by_alignment_witness :
  FontBufferParameters.get_line_length
    (FontBufferParameters.make 0 1 2 1107296256 (mathfu.Vec2i 100 0)
       kTextAlignmentRightJustify 0 false) = mul_int32_t 100 kFreeTypeUnit /\
  FontBufferParameters.get_line_length
    (FontBufferParameters.make 0 1 2 1107296256 (mathfu.Vec2i 100 0)
       kTextAlignmentCenter 0 false) = 0 /\
  mul_int32_t 100 kFreeTypeUnit = 6400.
Proof.
  split; [| split].
  - destruct (get_line_length_by_alignment
                (FontBufferParameters.make 0 1 2 1107296256
                   (mathfu.Vec2i 100 0) kTextAlignmentRightJustify 0 false))
      as (_ & Hproduct & _).
    apply Hproduct. reflexivity.
  - destruct (get_line_length_by_alignment
                (FontBufferParameters.make 0 1 2 1107296256
                   (mathfu.Vec2i 100 0) kTextAlignmentCenter 0 false))
      as (Hzero & _).
    apply Hzero. reflexivity.
  - destruct (get_line_length_by_alignment
                (FontBufferParameters.make 0 1 2 1107296256
                   (mathfu.Vec2i 100 0) kTextAlignmentCenter 0 false))
      as (_ & _ & _ & _ & Hfit).
    apply Hfit. cbv. split; congruence.
Defined.

(** ** Single-precision floats: equality *)

Lemma biased_exponent_eq (b : Z) :
  Float32.biased_exponent b = (b / 2 ^ 23) mod 2 ^ 8.
Proof.
  unfold Float32.biased_exponent.
  change 255 with (Z.ones 8).
  rewrite Z.land_ones, Z.shiftr_div_pow2 by lia. reflexivity.
Qed.

Lemma fraction_eq (b : Z) : Float32.fraction b = b mod 2 ^ 23.
Proof. unfold Float32.fraction. now rewrite Z.land_ones by lia. Qed.

Lemma sign_eq (b : Z) :
  Float32.is_float32 b -> Z.b2z (Float32.sign b) = b / 2 ^ 31.
Proof.
  unfold Float32.is_float32, Float32.sign. intros H.
  rewrite Z.testbit_spec' by lia.
  apply Z.mod_small.
  change (2 ^ 32) with (2 ^ 31 * 2) in H.
  change (2 ^ 31) with 2147483648 in *.
  split.
  - apply Z.div_pos; lia.
  - apply Z.div_lt_upper_bound; lia.
Qed.

(** A bit pattern is its three fields put together. *)
Lemma float_fields (b : Z) :
  Float32.is_float32 b ->
  b = Z.b2z (Float32.sign b) * 2 ^ 31
      + Float32.biased_exponent b * 2 ^ 23 + Float32.fraction b /\
  0 <= Float32.biased_exponent b < 256 /\
  0 <= Float32.fraction b < 2 ^ 23.
Proof.
  intros H. rewrite (sign_eq b H), biased_exponent_eq, fraction_eq.
  unfold Float32.is_float32 in H.
  change (2 ^ 32) with 4294967296 in H.
  change (2 ^ 31) with 2147483648.
  change (2 ^ 23) with 8388608.
  change (2 ^ 8) with 256.
  pose proof (Z.div_mod b 8388608 ltac:(lia)) as H1.
  pose proof (Z.mod_pos_bound b 8388608 ltac:(lia)) as H2.
  pose proof (Z.div_mod (b / 8388608) 256 ltac:(lia)) as H3.
  pose proof (Z.mod_pos_bound (b / 8388608) 256 ltac:(lia)) as H4.
  assert (b / 2147483648 = b / 8388608 / 256) as H5
    by (rewrite Z.div_div by lia; reflexivity).
  lia.
Qed.

Lemma float_fields_inj (a b : Z) :
  Float32.is_float32 a -> Float32.is_float32 b ->
  Float32.sign a = Float32.sign b ->
  Float32.biased_exponent a = Float32.biased_exponent b ->
  Float32.fraction a = Float32.fraction b ->
  a = b.
Proof.
  intros Ha Hb Hs He Hf.
  destruct (float_fields a Ha) as (Ea & _).
  destruct (float_fields b Hb) as (Eb & _).
  rewrite Ea, Eb, Hs, He, Hf. reflexivity.
Qed.

Lemma SFeqb_finite (s1 s2 : bool) (m1 m2 : positive) (e1 e2 : Z) :
  SFeqb (S754_finite s1 m1 e1) (S754_finite s2 m2 e2) = true <->
  s1 = s2 /\ m1 = m2 /\ e1 = e2.
Proof.
  unfold SFeqb, SFcompare. split.
  - destruct s1, s2; try discriminate;
      destruct (Z.compare_spec e1 e2); try discriminate;
      destruct (Pos.compare_cont Eq m1 m2) eqn:Hm; try discriminate;
      intros _; apply Pcompare_Eq_eq in Hm; auto.
  - intros (-> & -> & ->).
    rewrite Z.compare_refl, Pcompare_refl. now destruct s2.
Qed.

Lemma to_spec_decoded (b : Z) :
  Float32.is_float32 b -> decoded b (Float32.to_spec b).
Proof.
  intros H. destruct (float_fields b H) as (_ & He & Hf).
  unfold Float32.to_spec.
  destruct (Z.eqb_spec (Float32.biased_exponent b) 0) as [E0 | E0].
  - destruct (Float32.fraction b) as [| m | m] eqn:F.
    + now apply decoded_zero.
    + now apply decoded_subnormal.
    + lia.
  - destruct (Z.eqb_spec (Float32.biased_exponent b) 255) as [E1 | E1].
    + destruct (Z.eqb_spec (Float32.fraction b) 0) as [F | F].
      * now apply decoded_infinity.
      * now apply decoded_nan.
    + destruct (Float32.fraction b + 2 ^ 23) as [| m | m] eqn:F.
      * change (2 ^ 23) with 8388608 in *. lia.
      * apply decoded_normal; [lia | assumption].
      * change (2 ^ 23) with 8388608 in *. lia.
Qed.

Lemma SFeqb_same_number (x y : spec_float) :
  SFeqb x y = true <-> same_number x y.
Proof.
  destruct x as [s1 | s1 | | s1 m1 e1], y as [s2 | s2 | | s2 m2 e2];
    try apply SFeqb_finite;
    unfold SFeqb, SFcompare, same_number;
    try destruct s1; try destruct s2; split; intros H;
    try discriminate; try contradiction; try reflexivity; exact I.
Qed.

(** IEEE-754 equality on bit patterns: two patterns compare equal exactly
    when they are the same pattern and no NaN, or both are zeros (of either
    sign). *)
Lemma float_eqb_iff (a b : Z) :
  Float32.is_float32 a -> Float32.is_float32 b ->
  Float32.eqb a b = true <->
  (a = b /\ Float32.is_nan a = false) \/
  (Float32.is_zero a = true /\ Float32.is_zero b = true).
Proof.
  intros Ha Hb.
  destruct (float_fields a Ha) as (_ & Hea & Hfa).
  destruct (float_fields b Hb) as (_ & Heb & Hfb).
  unfold Float32.eqb. rewrite SFeqb_same_number.
  unfold Float32.is_nan, Float32.is_zero.
  change (2 ^ 23) with 8388608 in *.
  destruct (to_spec_decoded a Ha)
    as [Ea Fa | ma Ea Fa | Ea Fa | Ea Fa | ma Ea Fa];
    destruct (to_spec_decoded b Hb)
      as [Eb Fb | mb Eb Fb | Eb Fb | Eb Fb | mb Eb Fb];
    change (2 ^ 23) with 8388608 in *;
    cbn [same_number];
    (split;
     [ intros Hsame;
       first
         [ contradiction
         | right; split; lia
         | left; split; [apply float_fields_inj; intuition lia | lia] ]
     | intros [[Hab Hnan] | [Hza Hzb]];
       [ subst b; repeat split; lia | repeat split; lia ] ]).
Qed.

(** ** Single-precision floats: ordering

    The IEEE-754 comparison of canonical floats is the comparison of their
    values, and the conversion of an integer of magnitude up to [2^24] is
    exact. *)

Lemma pow2_pos (n : Z) : 0 <= n -> 0 < 2 ^ n.
Proof. intros. apply Z.pow_pos_nonneg; lia. Qed.

Lemma canonical_lt (m1 m2 : positive) (e1 e2 : Z) :
  canonical m1 e1 -> canonical m2 e2 -> e1 < e2 ->
  Zpos m1 * 2 ^ (e1 + 149) < Zpos m2 * 2 ^ (e2 + 149).
Proof.
  intros (He1 & Hm1 & _) (He2 & _ & Hn2) Hlt.
  change (2 ^ 24) with 16777216 in *. change (2 ^ 23) with 8388608 in *.
  replace (e2 + 149) with ((e1 + 149) + (e2 - e1)) by lia.
  rewrite (Z.pow_add_r 2 (e1 + 149) (e2 - e1)) by lia.
  pose proof (pow2_pos (e1 + 149) ltac:(lia)) as Ha.
  assert (2 <= 2 ^ (e2 - e1)) as Hk.
  { change 2 with (2 ^ 1) at 1. apply Z.pow_le_mono_r; lia. }
  destruct Hn2 as [Hn2 | Hn2]; [lia |].
  assert (16777216 <= Z.pos m2 * 2 ^ (e2 - e1)) as Hmk by nia.
  assert (Z.pos m1 * 2 ^ (e1 + 149) < 16777216 * 2 ^ (e1 + 149)) as H1 by nia.
  assert (16777216 * 2 ^ (e1 + 149)
          <= Z.pos m2 * 2 ^ (e2 - e1) * 2 ^ (e1 + 149)) as H2 by nia.
  lia.
Qed.

Lemma compare_scaled (m1 m2 : positive) (c : Z) :
  0 < c -> (Zpos m1 * c ?= Zpos m2 * c) = Pos.compare_cont Eq m1 m2.
Proof.
  intros Hc. change (Pos.compare_cont Eq m1 m2) with (Pos.compare m1 m2).
  destruct (Pos.compare_spec m1 m2) as [-> | Hlt | Hgt].
  - apply Z.compare_refl.
  - apply Z.compare_lt_iff. nia.
  - apply Z.compare_gt_iff. nia.
Qed.

Lemma SFcompare_exact (x y : spec_float) :
  finite_canonical x -> finite_canonical y ->
  SFcompare x y = Some (scaled_value x ?= scaled_value y).
Proof.
  destruct x as [s1 | s1 | | s1 m1 e1], y as [s2 | s2 | | s2 m2 e2];
    cbn [finite_canonical]; try contradiction; intros Hx Hy.
  - reflexivity.
  - cbn [SFcompare scaled_value]. destruct Hy as (He & _).
    pose proof (pow2_pos (e2 + 149) ltac:(lia)).
    destruct s2; cbn [cond_Zopp]; f_equal; symmetry.
    + apply Z.compare_gt_iff. lia.
    + apply Z.compare_lt_iff. lia.
  - cbn [SFcompare scaled_value]. destruct Hx as (He & _).
    pose proof (pow2_pos (e1 + 149) ltac:(lia)).
    destruct s1; cbn [cond_Zopp]; f_equal; symmetry.
    + apply Z.compare_lt_iff. lia.
    + apply Z.compare_gt_iff. lia.
  - cbn [SFcompare scaled_value].
    pose proof (pow2_pos (e1 + 149) ltac:(destruct Hx; lia)) as P1.
    pose proof (pow2_pos (e2 + 149) ltac:(destruct Hy; lia)) as P2.
    destruct s1, s2; cbn [cond_Zopp]; f_equal.
    + (* both negative *)
      destruct (Z.compare_spec e1 e2) as [-> | Hlt | Hgt].
      * rewrite Z.compare_opp, compare_scaled by assumption.
        symmetry. apply ZC4.
      * pose proof (canonical_lt _ _ _ _ Hx Hy Hlt).
        symmetry. apply Z.compare_gt_iff. lia.
      * pose proof (canonical_lt _ _ _ _ Hy Hx Hgt).
        symmetry. apply Z.compare_lt_iff. lia.
    + symmetry. apply Z.compare_lt_iff. lia.
    + symmetry. apply Z.compare_gt_iff. lia.
    + destruct (Z.compare_spec e1 e2) as [-> | Hlt | Hgt].
      * now rewrite compare_scaled.
      * pose proof (canonical_lt _ _ _ _ Hx Hy Hlt).
        symmetry. apply Z.compare_lt_iff. lia.
      * pose proof (canonical_lt _ _ _ _ Hy Hx Hgt).
        symmetry. apply Z.compare_gt_iff. lia.
Qed.

Lemma digits2_pos_bounds (p : positive) :
  2 ^ (Zpos (digits2_pos p) - 1) <= Zpos p < 2 ^ Zpos (digits2_pos p).
Proof.
  induction p as [p IH | p IH |]; cbn [digits2_pos].
  - rewrite Pos2Z.inj_succ.
    replace (Z.succ (Zpos (digits2_pos p)) - 1)
      with (Z.succ (Zpos (digits2_pos p) - 1)) by lia.
    rewrite !Z.pow_succ_r by lia. lia.
  - rewrite Pos2Z.inj_succ.
    replace (Z.succ (Zpos (digits2_pos p)) - 1)
      with (Z.succ (Zpos (digits2_pos p) - 1)) by lia.
    rewrite !Z.pow_succ_r by lia. lia.
  - cbn. lia.
Qed.

Lemma iter_xO_value (p k : positive) :
  Zpos (Pos.iter xO p k) = Zpos p * 2 ^ Zpos k.
Proof.
  induction k as [| k IH] using Pos.peano_ind.
  - cbn. lia.
  - rewrite Pos.iter_succ, Pos2Z.inj_succ, Z.pow_succ_r by lia.
    rewrite Pos2Z.inj_xO, IH. lia.
Qed.

Lemma iter_xO_digits (p k : positive) :
  digits2_pos (Pos.iter xO p k) = (digits2_pos p + k)%positive.
Proof.
  induction k as [| k IH] using Pos.peano_ind.
  - cbn. lia.
  - rewrite Pos.iter_succ. cbn [digits2_pos]. rewrite IH. lia.
Qed.

Lemma binary_round_aux_exact (s : bool) (M : positive) (E : Z) :
  digits2_pos M = 24%positive -> -149 <= E <= 104 ->
  binary_round_aux Float32.prec Float32.emax s (Zpos M) E loc_Exact
  = S754_finite s M E.
Proof.
  intros Hd HE.
  assert (fexp Float32.prec Float32.emax (Zpos (digits2_pos M) + E) - E = 0)
    as Hshift.
  { rewrite Hd. unfold fexp, emin, Float32.prec, Float32.emax. lia. }
  unfold binary_round_aux, shr_fexp.
  cbn [Zdigits2 shr_record_of_loc]. rewrite Hshift.
  cbn [shr shr_m loc_of_shr_record round_nearest_even Zdigits2
       shr_record_of_loc].
  rewrite Hshift. cbn [shr shr_m].
  unfold Float32.prec, Float32.emax.
  replace (E <=? 128 - 24) with true by lia. reflexivity.
Qed.

Lemma binary_round_exact (s : bool) (p : positive) :
  Zpos p <= 2 ^ 24 ->
  exists M E,
    binary_round Float32.prec Float32.emax s p 0 = S754_finite s M E /\
    canonical M E /\
    Zpos M * 2 ^ (E + 149) = Zpos p * 2 ^ 149.
Proof.
  intros Hp.
  assert (Zpos p = 2 ^ 24 \/ Zpos p < 2 ^ 24) as [Htop | Hlt] by lia.
  - change (2 ^ 24) with (Zpos 16777216) in Htop. injection Htop as ->.
    exists 8388608%positive, 1. split; [now destruct s |].
    split; [| reflexivity].
    unfold canonical. change (2 ^ 24) with 16777216.
    change (2 ^ 23) with 8388608. lia.
  - pose proof (digits2_pos_bounds p) as (Hlo & Hhi).
    assert (Zpos (digits2_pos p) <= 24) as Hd.
    { destruct (Z.le_gt_cases (Zpos (digits2_pos p)) 24) as [H | H]; [exact H |].
      exfalso.
      assert (2 ^ 24 <= 2 ^ (Zpos (digits2_pos p) - 1))
        by (apply Z.pow_le_mono_r; lia).
      lia. }
    unfold binary_round.
    assert (fexp Float32.prec Float32.emax (Zpos (digits2_pos p) + 0)
            = Zpos (digits2_pos p) - 24) as Hfexp.
    { unfold fexp, emin, Float32.prec, Float32.emax. lia. }
    rewrite Hfexp. unfold shl_align.
    destruct (Zpos (digits2_pos p) - 24 - 0) as [| k | k] eqn:Hk; try lia.
    + (* 24 digits already *)
      assert (digits2_pos p = 24%positive) as Hd24 by lia.
      exists p, 0. split; [now apply binary_round_aux_exact; [| lia] |].
      split; [| reflexivity].
      rewrite Hd24 in Hlo. unfold canonical.
      change (2 ^ (24 - 1)) with (2 ^ 23) in Hlo. lia.
    + (* shifted left by k = 24 - digits *)
      assert (digits2_pos (Pos.iter xO p k) = 24%positive) as Hd24
          by (rewrite iter_xO_digits; lia).
      exists (Pos.iter xO p k), (Zpos (digits2_pos p) - 24).
      split; [apply binary_round_aux_exact; [exact Hd24 | lia] |].
      pose proof (digits2_pos_bounds (Pos.iter xO p k)) as (Hlo' & Hhi').
      rewrite Hd24 in Hlo', Hhi'.
      change (2 ^ (24 - 1)) with (2 ^ 23) in Hlo'.
      split; [unfold canonical; lia |].
      rewrite iter_xO_value, <- Z.mul_assoc, <- Z.pow_add_r by lia.
      f_equal. f_equal. lia.
Qed.

Lemma to_spec_canonical (b : Z) :
  Float32.is_float32 b ->
  match Float32.to_spec b with
  | S754_nan | S754_infinity _ => True
  | x => finite_canonical x
  end.
Proof.
  intros Hb. destruct (float_fields b Hb) as (_ & He & Hf).
  change (2 ^ 23) with 8388608 in *.
  destruct (to_spec_decoded b Hb) as [E F | m E F | E F | E F | m E F];
    cbn [finite_canonical]; try exact I;
    unfold canonical; change (2 ^ 24) with 16777216;
    change (2 ^ 23) with 8388608 in *; lia.
Qed.

Lemma of_int32_t_exact (n : Z) :
  - 2 ^ 24 <= n <= 2 ^ 24 ->
  finite_canonical (Float32.of_int32_t n) /\
  scaled_value (Float32.of_int32_t n) = n * 2 ^ 149.
Proof.
  intros Hn. unfold Float32.of_int32_t, binary_normalize.
  destruct n as [| p | p].
  - split; [exact I | reflexivity].
  - destruct (binary_round_exact false p ltac:(lia)) as (M & E & -> & Hc & Hv).
    split; [exact Hc | exact Hv].
  - destruct (binary_round_exact true p ltac:(lia)) as (M & E & -> & Hc & Hv).
    split; [exact Hc |]. cbn [scaled_value cond_Zopp]. rewrite Hv. lia.
Qed.

Lemma int32_gtb_exact (n b : Z) :
  Float32.is_float32 b -> - 2 ^ 24 <= n <= 2 ^ 24 ->
  Float32.int32_gtb n b = true <-> exceeds n b.
Proof.
  intros Hb Hn.
  destruct (of_int32_t_exact n Hn) as (Hcn & Hvn).
  pose proof (to_spec_canonical b Hb) as Hcb.
  unfold Float32.int32_gtb, exceeds, SFltb.
  destruct (Float32.to_spec b) as [s | s | | s m e] eqn:Hspec.
  - rewrite (SFcompare_exact _ _ Hcb Hcn), Hvn.
    destruct (Z.compare_spec (scaled_value (S754_zero s)) (n * 2 ^ 149));
      split; intros; try discriminate; try reflexivity; lia.
  - destruct (Float32.of_int32_t n) as [s' | s' | | s' m' e'];
      try contradiction; cbn [SFcompare]; destruct s; split;
      intros; try discriminate; try reflexivity.
  - cbn [SFcompare]. split; [discriminate | contradiction].
  - rewrite (SFcompare_exact _ _ Hcb Hcn), Hvn.
    destruct (Z.compare_spec (scaled_value (S754_finite s m e)) (n * 2 ^ 149));
      split; intros; try discriminate; try reflexivity; lia.
Qed.

(** *** Integers that the conversion rounds *)

Lemma shr_1_shifted (m0 k : Z) (mrs : shr_record) :
  0 <= m0 -> 0 <= k -> shifted m0 k mrs -> shifted m0 (k + 1) (shr_1 mrs).
Proof.
  intros Hm0 Hk (Hm & Hrs).
  assert (0 < 2 ^ k) as Hpow by (apply Z.pow_pos_nonneg; lia).
  assert (m0 / 2 ^ (k + 1) = m0 / 2 ^ k / 2) as Hdiv.
  { rewrite Z.pow_add_r, Z.pow_1_r by lia. now rewrite Z.div_div by lia. }
  assert (m0 mod 2 ^ (k + 1) = m0 mod 2 ^ k + 2 ^ k * ((m0 / 2 ^ k) mod 2))
    as Hmod.
  { rewrite Z.pow_add_r, Z.pow_1_r by lia. apply Z.rem_mul_r; lia. }
  pose proof (Z.mod_pos_bound m0 (2 ^ k) Hpow) as Hr.
  pose proof (Z.mod_pos_bound (m0 / 2 ^ k) 2 ltac:(lia)) as Hq.
  pose proof (Z.div_pos m0 (2 ^ k) Hm0 Hpow) as Hqpos.
  unfold shifted. rewrite Hdiv, Hmod.
  destruct mrs as [m r s]. cbn [shr_m shr_r shr_s] in *.
  rewrite <- Hm in *. clear Hm Hdiv Hmod.
  destruct m as [| [p | p |] | p]; cbn [shr_1 shr_m shr_r shr_s].
  - (* 0 *) split; [reflexivity |]. cbn [orb].
    change (0 mod 2) with 0 in *. rewrite Hrs. lia.
  - (* xI *) split; [rewrite Pos2Z.inj_xI; apply Z.div_unique with 1; lia|].
    cbn [orb]. split; [discriminate |].
    assert (Z.pos p~1 mod 2 = 1) as ->
        by (rewrite Pos2Z.inj_xI; symmetry; apply Z.mod_unique with (Z.pos p); lia).
    intros H. exfalso. lia.
  - (* xO *) split; [rewrite Pos2Z.inj_xO; apply Z.div_unique with 0; lia|].
    cbn [orb].
    assert (Z.pos p~0 mod 2 = 0) as -> by (rewrite Pos2Z.inj_xO; symmetry; apply Z.mod_unique with (Z.pos p); lia).
    rewrite Hrs. lia.
  - (* 1 *) split; [reflexivity |]. cbn [orb]. split; [discriminate |].
    change (1 mod 2) with 1. intros H. exfalso. lia.
  - lia.
Qed.

Lemma iter_pos_shifted (n : positive) :
  forall (m0 k : Z) (mrs : shr_record),
    0 <= m0 -> 0 <= k -> shifted m0 k mrs ->
    shifted m0 (k + Zpos n) (iter_pos shr_1 n mrs).
Proof.
  induction n as [n IH | n IH |]; intros m0 k mrs Hm0 Hk Hs; cbn [iter_pos].
  - replace (k + Z.pos n~1) with (k + 1 + Zpos n + Zpos n) by lia.
    apply IH; [lia | lia |]. apply IH; [lia | lia |].
    now apply shr_1_shifted.
  - replace (k + Z.pos n~0) with (k + Zpos n + Zpos n) by lia.
    apply IH; [lia | lia |]. now apply IH.
  - now apply shr_1_shifted.
Qed.

Lemma digits2_pos_unique (p : positive) (d : Z) :
  2 ^ (d - 1) <= Zpos p < 2 ^ d -> Zpos (digits2_pos p) = d.
Proof.
  intros (Hlo & Hhi).
  pose proof (digits2_pos_bounds p) as (Hlo' & Hhi').
  assert (0 < d) as Hd.
  { destruct (Z.lt_ge_cases 0 d) as [H | H]; [exact H |].
    exfalso. rewrite (Z.pow_neg_r 2 (d - 1)) in Hlo by lia.
    destruct (Z.eq_dec d 0) as [-> | Hne].
    - cbn in Hhi. lia.
    - rewrite (Z.pow_neg_r 2 d) in Hhi by lia. lia. }
  destruct (Z.lt_trichotomy (Zpos (digits2_pos p)) d) as [H | [H | H]].
  - exfalso.
    assert (2 ^ Zpos (digits2_pos p) <= 2 ^ (d - 1))
      by (apply Z.pow_le_mono_r; lia).
    lia.
  - exact H.
  - exfalso.
    assert (2 ^ d <= 2 ^ (Zpos (digits2_pos p) - 1))
      by (apply Z.pow_le_mono_r; lia).
    lia.
Qed.

(** What the conversion makes of an integer of more than 24 bits: the
    24 leading bits, or one more in the last place, times the power of two
    of the bits that are dropped; the leading bits themselves when the
    dropped bits are all 0. *)
Lemma binary_round_inexact (s : bool) (p : positive) :
  2 ^ 24 < Zpos p < 2 ^ 32 ->
  let k := Zpos (digits2_pos p) - 24 in
  exists (M : positive) (E m' : Z),
    binary_round Float32.prec Float32.emax s p 0 = S754_finite s M E /\
    canonical M E /\
    Zpos M * 2 ^ (E + 149) = m' * 2 ^ (k + 149) /\
    0 < k <= 8 /\
    2 ^ 23 <= Zpos p / 2 ^ k < 2 ^ 24 /\
    Zpos p / 2 ^ k <= m' <= Zpos p / 2 ^ k + 1 /\
    (Zpos p mod 2 ^ k = 0 -> m' = Zpos p / 2 ^ k).
Proof.
  intros Hp k.
  pose proof (digits2_pos_bounds p) as (Hlo & Hhi).
  assert (25 <= Zpos (digits2_pos p) <= 32) as Hd.
  { split.
    - destruct (Z.lt_ge_cases (Zpos (digits2_pos p)) 25) as [H | H]; [| exact H].
      exfalso.
      assert (2 ^ Zpos (digits2_pos p) <= 2 ^ 24)
        by (apply Z.pow_le_mono_r; lia).
      lia.
    - destruct (Z.lt_ge_cases 32 (Zpos (digits2_pos p))) as [H | H]; [| exact H].
      exfalso.
      assert (2 ^ 32 <= 2 ^ (Zpos (digits2_pos p) - 1))
        by (apply Z.pow_le_mono_r; lia).
      lia. }
  assert (0 < k <= 8) as Hk by (unfold k; lia).
  assert (0 < 2 ^ k) as Hpow by (apply Z.pow_pos_nonneg; lia).
  (* the 24 leading bits *)
  assert (2 ^ 23 <= Zpos p / 2 ^ k < 2 ^ 24) as Hm.
  { replace (Zpos (digits2_pos p)) with (24 + k) in Hhi by (unfold k; lia).
    replace (Zpos (digits2_pos p) - 1) with (23 + k) in Hlo by (unfold k; lia).
    rewrite Z.pow_add_r in Hlo, Hhi by lia.
    split.
    - apply Z.div_le_lower_bound; lia.
    - apply Z.div_lt_upper_bound; lia. }
  (* the first shift *)
  unfold binary_round.
  assert (fexp Float32.prec Float32.emax (Zpos (digits2_pos p) + 0) = k)
    as Hfexp.
  { unfold fexp, emin, Float32.prec, Float32.emax, k. lia. }
  rewrite Hfexp. unfold shl_align.
  destruct (k - 0) as [| k0 | k0] eqn:Hk0; try lia.
  assert (shr_fexp Float32.prec Float32.emax (Zpos p) 0 loc_Exact
          = (iter_pos shr_1 k0 (Build_shr_record (Zpos p) false false),
             0 + Zpos k0)) as Hfirst.
  { unfold shr_fexp. cbn [Zdigits2]. rewrite Hfexp, Hk0. reflexivity. }
  unfold binary_round_aux. rewrite Hfirst. clear Hfirst.
  assert (shifted (Zpos p) (0 + Zpos k0)
            (iter_pos shr_1 k0 (Build_shr_record (Zpos p) false false)))
    as Hshift.
  { apply (iter_pos_shifted k0 (Zpos p) 0); [lia | lia |].
    split; cbn [shr_m shr_r shr_s orb].
    - rewrite Z.pow_0_r. now rewrite Z.div_1_r.
    - rewrite Z.pow_0_r. rewrite Z.mod_1_r. tauto. }
  replace (0 + Zpos k0) with k in * by lia.
  destruct Hshift as (Hshr_m & Hshr_rs).
  destruct (iter_pos shr_1 k0 (Build_shr_record (Zpos p) false false))
    as [m r s0].
  cbn [shr_m shr_r shr_s] in Hshr_m, Hshr_rs. cbn [shr_m].
  (* rounding *)
  set (m' := round_nearest_even m
               (loc_of_shr_record (Build_shr_record m r s0))).
  assert (m <= m' <= m + 1 /\ (Zpos p mod 2 ^ k = 0 -> m' = m))
    as (Hm' & Hexact).
  { unfold m'. destruct r, s0; cbn [loc_of_shr_record round_nearest_even];
      try destruct (Z.even m);
      (split; [lia |]); intros H; apply Hshr_rs in H; try discriminate;
      reflexivity. }
  clearbody m'. rewrite Hshr_m in Hm'. rewrite Hshr_m in Hexact.
  clear Hshr_rs.
  (* the second shift *)
  assert (m' < 2 ^ 24 \/ m' = 2 ^ 24) as [Hlt | Htop] by lia.
  - destruct m' as [| M |]; try lia.
    assert (Zpos (digits2_pos M) = 24) as HdM
        by (apply digits2_pos_unique; change (24 - 1) with 23; lia).
    unfold shr_fexp. cbn [Zdigits2]. rewrite HdM.
    assert (fexp Float32.prec Float32.emax (24 + k) - k = 0) as ->.
    { unfold fexp, emin, Float32.prec, Float32.emax. lia. }
    cbn [shr shr_record_of_loc shr_m].
    unfold Float32.prec, Float32.emax.
    replace (k <=? 128 - 24) with true by lia.
    exists M, k, (Zpos M).
    split; [reflexivity |]. split.
    { unfold canonical. lia. }
    repeat split; lia.
  - subst m'. change (2 ^ 24) with (Zpos 16777216).
    unfold shr_fexp. cbn [Zdigits2 digits2_pos Pos.succ].
    assert (fexp Float32.prec Float32.emax (25 + k) - k = 1) as ->.
    { unfold fexp, emin, Float32.prec, Float32.emax. lia. }
    cbn [shr shr_record_of_loc iter_pos shr_1 shr_m].
    unfold Float32.prec, Float32.emax.
    replace (k + 1 <=? 128 - 24) with true by lia.
    exists 8388608%positive, (k + 1), (2 ^ 24).
    split; [reflexivity |]. split.
    { unfold canonical. change (2 ^ 24) with 16777216.
      change (2 ^ 23) with 8388608. lia. }
    split.
    { replace (k + 1 + 149) with (1 + (k + 149)) by lia.
      rewrite (Z.pow_add_r 2 1 (k + 149)) by lia.
      change (2 ^ 24) with 16777216. change (2 ^ 1) with 2. lia. }
    repeat split; lia.
Qed.

(** A canonical float that is at least an integer of [24 + k] bits is a
    multiple of [2^k]. *)
Lemma canonical_above (mf : positive) (ef k p : Z) :
  canonical mf ef -> 0 < k -> 2 ^ 23 <= p / 2 ^ k ->
  p * 2 ^ 149 <= Zpos mf * 2 ^ (ef + 149) -> k <= ef.
Proof.
  intros (He & Hmf & _) Hk Hm Hle.
  destruct (Z.le_gt_cases k ef) as [H | H]; [exact H | exfalso].
  assert (0 < 2 ^ k) as Hpow by (apply Z.pow_pos_nonneg; lia).
  assert (0 < 2 ^ 149) as HA by (apply Z.pow_pos_nonneg; lia).
  assert (0 < 2 ^ (ef + 149)) as HB by (apply Z.pow_pos_nonneg; lia).
  pose proof (Z.mul_div_le p (2 ^ k) Hpow) as Hdiv.
  assert (2 ^ (ef + 149) * 2 <= 2 ^ (k + 149)) as Hstep.
  { replace (k + 149) with ((ef + 149) + (k - ef)) by lia.
    rewrite (Z.pow_add_r 2 (ef + 149) (k - ef)) by lia.
    assert (2 ^ 1 <= 2 ^ (k - ef)) by (apply Z.pow_le_mono_r; lia).
    change (2 ^ 1) with 2 in *. nia. }
  rewrite (Z.pow_add_r 2 k 149) in Hstep by lia.
  change (2 ^ 24) with 16777216 in *. change (2 ^ 23) with 8388608 in *.
  assert (8388608 * 2 ^ k <= p) by nia.
  assert (8388608 * (2 ^ k * 2 ^ 149) <= p * 2 ^ 149) by nia.
  assert (Zpos mf * 2 ^ (ef + 149) < 16777216 * 2 ^ (ef + 149)) by nia.
  lia.
Qed.

(** A float that is at least the integer [p] is at least what [p] is
    rounded to. *)
Lemma round_le_float_above (mf : positive) (ef k p m' : Z) :
  canonical mf ef -> 0 < k -> 0 <= p -> 2 ^ 23 <= p / 2 ^ k ->
  p / 2 ^ k <= m' <= p / 2 ^ k + 1 ->
  (p mod 2 ^ k = 0 -> m' = p / 2 ^ k) ->
  p * 2 ^ 149 <= Zpos mf * 2 ^ (ef + 149) ->
  m' * 2 ^ (k + 149) <= Zpos mf * 2 ^ (ef + 149).
Proof.
  intros Hc Hk Hp Hm Hm' Hexact Hle.
  pose proof (canonical_above mf ef k p Hc Hk Hm Hle) as Hef.
  assert (0 < 2 ^ k) as Hpow by (apply Z.pow_pos_nonneg; lia).
  assert (0 < 2 ^ 149) as HA by (apply Z.pow_pos_nonneg; lia).
  assert (0 < 2 ^ (ef - k)) as HJ by (apply Z.pow_pos_nonneg; lia).
  replace (ef + 149) with ((ef - k) + (k + 149)) in * by lia.
  rewrite (Z.pow_add_r 2 (ef - k) (k + 149)) in * by lia.
  rewrite (Z.pow_add_r 2 k 149) in * by lia.
  pose proof (Z.div_mod p (2 ^ k) ltac:(lia)) as Hdm.
  pose proof (Z.mod_pos_bound p (2 ^ k) Hpow) as Hr.
  set (q := Zpos mf * 2 ^ (ef - k)) in *.
  assert (Zpos mf * (2 ^ (ef - k) * (2 ^ k * 2 ^ 149))
          = q * 2 ^ k * 2 ^ 149) as Hq by (unfold q; ring).
  rewrite Hq in *. clear Hq.
  assert (p <= q * 2 ^ k) as Hpq by nia.
  assert (m' <= q) as Hmq.
  { destruct (Z.eq_dec (p mod 2 ^ k) 0) as [Hz | Hnz].
    - rewrite (Hexact Hz). apply Z.div_le_upper_bound; lia.
    - assert (p / 2 ^ k < q) by nia. lia. }
  nia.
Qed.

(** A float that is at most the integer [p] is at most what [p] is
    rounded to. *)
Lemma round_ge_float_below (mf : positive) (ef k p m' : Z) :
  canonical mf ef -> 0 < k -> 0 <= p -> 2 ^ 23 <= p / 2 ^ k ->
  p / 2 ^ k <= m' ->
  Zpos mf * 2 ^ (ef + 149) <= p * 2 ^ 149 ->
  Zpos mf * 2 ^ (ef + 149) <= m' * 2 ^ (k + 149).
Proof.
  intros Hc Hk Hp Hm Hm' Hle.
  assert (0 < 2 ^ k) as Hpow by (apply Z.pow_pos_nonneg; lia).
  assert (0 < 2 ^ 149) as HA by (apply Z.pow_pos_nonneg; lia).
  destruct Hc as (He & Hmf & _).
  change (2 ^ 24) with 16777216 in *. change (2 ^ 23) with 8388608 in *.
  destruct (Z.le_gt_cases k ef) as [Hef | Hef].
  - assert (0 < 2 ^ (ef - k)) as HJ by (apply Z.pow_pos_nonneg; lia).
    replace (ef + 149) with ((ef - k) + (k + 149)) in * by lia.
    rewrite (Z.pow_add_r 2 (ef - k) (k + 149)) in * by lia.
    rewrite (Z.pow_add_r 2 k 149) in * by lia.
    set (q := Zpos mf * 2 ^ (ef - k)) in *.
    assert (Zpos mf * (2 ^ (ef - k) * (2 ^ k * 2 ^ 149))
            = q * 2 ^ k * 2 ^ 149) as Hq by (unfold q; ring).
    rewrite Hq in *. clear Hq.
    assert (q * 2 ^ k <= p) as Hqp by nia.
    assert (q <= p / 2 ^ k) by (apply Z.div_le_lower_bound; lia).
    nia.
  - assert (0 < 2 ^ (ef + 149)) as HB by (apply Z.pow_pos_nonneg; lia).
    assert (2 ^ (ef + 149) * 2 <= 2 ^ (k + 149)) as Hstep.
    { replace (k + 149) with ((ef + 149) + (k - ef)) by lia.
      rewrite (Z.pow_add_r 2 (ef + 149) (k - ef)) by lia.
      assert (2 ^ 1 <= 2 ^ (k - ef)) by (apply Z.pow_le_mono_r; lia).
      change (2 ^ 1) with 2 in *. nia. }
    assert (0 < 2 ^ (k + 149)) by (apply Z.pow_pos_nonneg; lia).
    assert (Zpos mf * 2 ^ (ef + 149) < 16777216 * 2 ^ (ef + 149)) by nia.
    assert (8388608 * 2 ^ (k + 149) <= m' * 2 ^ (k + 149)) by nia.
    lia.
Qed.

(** The conversion never carries an integer past a float: a float that is
    at least [n] is at least the float of [n]. *)
Lemma of_int32_t_le_float (n : Z) (x : spec_float) :
  is_int32_t n -> finite_canonical x ->
  finite_canonical (Float32.of_int32_t n) /\
  (n * 2 ^ 149 <= scaled_value x ->
   scaled_value (Float32.of_int32_t n) <= scaled_value x).
Proof.
  intros Hn Hx.
  destruct (Z.le_gt_cases (Z.abs n) (2 ^ 24)) as [Hsmall | Hlarge].
  { destruct (of_int32_t_exact n ltac:(lia)) as (Hc & Hv).
    split; [exact Hc |]. rewrite Hv. auto. }
  assert (0 < 2 ^ 149) as HA by (apply Z.pow_pos_nonneg; lia).
  unfold is_int32_t in Hn. change (2 ^ 31) with 2147483648 in Hn.
  unfold Float32.of_int32_t, binary_normalize.
  destruct n as [| p | p]; [cbn in Hlarge; lia | |].
  - destruct (binary_round_inexact false p) as
      (M & E & m' & -> & Hc & Hv & Hk & Hm & Hm' & Hexact).
    { change (2 ^ 32) with 4294967296. lia. }
    split; [exact Hc |].
    cbn [scaled_value cond_Zopp]. rewrite Hv.
    destruct x as [s | s | | s mf ef]; cbn [finite_canonical] in Hx;
      [| destruct Hx | destruct Hx |]; cbn [scaled_value].
    + intros Hle. exfalso. nia.
    + destruct s; cbn [cond_Zopp].
      * destruct Hx as (He & _).
        assert (0 < 2 ^ (ef + 149)) by (apply Z.pow_pos_nonneg; lia).
        intros Hle. exfalso. nia.
      * apply round_le_float_above; (assumption || lia).
  - destruct (binary_round_inexact true p) as
      (M & E & m' & -> & Hc & Hv & Hk & Hm & Hm' & Hexact).
    { change (2 ^ 32) with 4294967296. lia. }
    split; [exact Hc |].
    cbn [scaled_value cond_Zopp]. rewrite Hv.
    assert (0 < 2 ^ (Zpos (digits2_pos p) - 24 + 149))
      by (apply Z.pow_pos_nonneg; lia).
    change (2 ^ 23) with 8388608 in Hm.
    destruct x as [s | s | | s mf ef]; cbn [finite_canonical] in Hx;
      [| destruct Hx | destruct Hx |]; cbn [scaled_value].
    + intros _. nia.
    + destruct s; cbn [cond_Zopp].
      * intros Hle.
        pose proof (round_ge_float_below mf ef
                      (Zpos (digits2_pos p) - 24) (Zpos p) m' Hx
                      ltac:(lia) ltac:(lia)
                      ltac:(change (2 ^ 23) with 8388608; lia)
                      ltac:(lia) ltac:(lia)).
        lia.
      * destruct Hx as (He & _).
        assert (0 < 2 ^ (ef + 149)) by (apply Z.pow_pos_nonneg; lia). nia.
Qed.

(** [n > b] in [float] arithmetic holds only if [n] exceeds [b]. *)
Lemma int32_gtb_sound (n b : Z) :
  Float32.is_float32 b -> is_int32_t n ->
  Float32.int32_gtb n b = true -> exceeds n b.
Proof.
  intros Hb Hn.
  pose proof (to_spec_canonical b Hb) as Hcb.
  unfold Float32.int32_gtb, exceeds, SFltb.
  destruct (Float32.to_spec b) as [s | s | | s m e] eqn:Hspec.
  - destruct (of_int32_t_le_float n (S754_zero s) Hn Hcb) as (Hcn & Hle).
    rewrite (SFcompare_exact _ _ Hcb Hcn).
    destruct (Z.compare_spec (scaled_value (S754_zero s))
                (scaled_value (Float32.of_int32_t n))); try discriminate.
    intros _. lia.
  - destruct (of_int32_t_le_float n (S754_zero false) Hn I) as (Hcn & _).
    destruct (Float32.of_int32_t n) as [s' | s' | | s' m' e'];
      try contradiction; cbn [SFcompare]; destruct s;
      intros; try discriminate; reflexivity.
  - cbn [SFcompare]. discriminate.
  - destruct (of_int32_t_le_float n (S754_finite s m e) Hn Hcb) as (Hcn & Hle).
    rewrite (SFcompare_exact _ _ Hcb Hcn).
    destruct (Z.compare_spec (scaled_value (S754_finite s m e))
                (scaled_value (Float32.of_int32_t n))); try discriminate.
    intros _. lia.
Qed.

(** ** C6: [get_multi_line_setting] *)

(** C6, as the code has it.  For every [FontBufferParameters],
    [get_multi_line_setting] returns false if the requested width is 0;
    otherwise it returns true if the text alignment is not left; otherwise
    it returns true if and only if the requested height is 0 or is greater
    than the font size in the comparison [size_.y() > font_size_], which
    converts the height to [float] first.  For every height of magnitude up
    to [2^24] the conversion is exact, and the setting is true if and only
    if the height is 0 or exceeds the font size ([exceeds]: a NaN font size
    is exceeded by no height).  A larger height is rounded to the nearest
    [float]: there the setting is true only if the height is 0 or exceeds
    the font size. *)
Theorem get_multi_line_setting_cases (p : FontBufferParameters.t) :
  let width := mathfu.x (size_ p) in
  let height := mathfu.y (size_ p) in
  let alignment := FontBufferParameters.get_text_alignment p in
  (width = 0 -> FontBufferParameters.get_multi_line_setting p = false) /\
  (width <> 0 -> alignment <> kTextAlignmentLeft ->
   FontBufferParameters.get_multi_line_setting p = true) /\
  (width <> 0 -> alignment = kTextAlignmentLeft ->
   (FontBufferParameters.get_multi_line_setting p = true <->
    height = 0 \/ Float32.int32_gtb height (font_size_ p) = true)) /\
  (width <> 0 -> alignment = kTextAlignmentLeft ->
   Float32.is_float32 (font_size_ p) -> - 2 ^ 24 <= height <= 2 ^ 24 ->
   (FontBufferParameters.get_multi_line_setting p = true <->
    height = 0 \/ exceeds height (font_size_ p))) /\
  (width <> 0 -> alignment = kTextAlignmentLeft ->
   Float32.is_float32 (font_size_ p) -> is_int32_t height ->
   FontBufferParameters.get_multi_line_setting p = true ->
   height = 0 \/ exceeds height (font_size_ p)).
Proof.
  intros width height alignment.
  assert (width <> 0 -> alignment = kTextAlignmentLeft ->
          (FontBufferParameters.get_multi_line_setting p = true <->
           height = 0 \/ Float32.int32_gtb height (font_size_ p) = true))
    as Hleft.
  { intros Hw Ha. unfold FontBufferParameters.get_multi_line_setting.
    fold width. fold height. fold alignment.
    destruct (Z.eqb_spec width 0); [contradiction |].
    rewrite Ha. cbn [Z.eqb kTextAlignmentLeft negb].
    rewrite Bool.orb_true_iff, Z.eqb_eq. reflexivity. }
  split; [| split; [| split; [| split]]].
  - intros Hw. unfold FontBufferParameters.get_multi_line_setting.
    fold width. rewrite Hw. reflexivity.
  - intros Hw Ha. unfold FontBufferParameters.get_multi_line_setting.
    fold width. fold alignment.
    destruct (Z.eqb_spec width 0); [contradiction |].
    destruct (Z.eqb_spec alignment kTextAlignmentLeft); [contradiction |].
    reflexivity.
  - exact Hleft.
  - intros Hw Ha Hfloat Hheight.
    rewrite (Hleft Hw Ha), (int32_gtb_exact height _ Hfloat Hheight).
    reflexivity.
  - intros Hw Ha Hfloat Hheight Hmulti.
    apply (Hleft Hw Ha) in Hmulti. destruct Hmulti as [Hzero | Hgt].
    + now left.
    + right. now apply int32_gtb_sound.
Qed.

(** A left-aligned request 200 pixels wide and 40 high in a 32-pixel font
    is laid out on several lines; one 32 high is not; a request without a
    width never is. *)
Lemma get_multi_line_setting_cases_witness :
  FontBufferParameters.get_multi_line_setting
    (FontBufferParameters.make 0 1 2 1107296256 (mathfu.Vec2i 200 40)
       kTextAlignmentLeft 0 false) = true /\
  exceeds 40 1107296256 /\
  FontBufferParameters.get_multi_line_setting
    (FontBufferParameters.make 0 1 2 1107296256 (mathfu.Vec2i 0 40)
       kTextAlignmentRight 0 false) = false.
Proof.
  assert (exceeds 40 1107296256) as Hexceeds by (cbv; reflexivity).
  split; [| split].
  - destruct (get_multi_line_setting_cases
                (FontBufferParameters.make 0 1 2 1107296256
                   (mathfu.Vec2i 200 40) kTextAlignmentLeft 0 false))
      as (_ & _ & _ & Hexact & _).
    apply Hexact.
    + cbv. congruence.
    + reflexivity.
    + cbv. split; congruence.
    + cbv. split; congruence.
    + right. exact Hexceeds.
  - exact Hexceeds.
  - destruct (get_multi_line_setting_cases
                (FontBufferParameters.make 0 1 2 1107296256
                   (mathfu.Vec2i 0 40) kTextAlignmentRight 0 false))
      as (Hzero & _).
    apply Hzero. reflexivity.
Defined.

(** C6 fails as stated for a height that [float] does not hold.  A
    left-aligned request 200 pixels wide and 16777217 high with the font
    size 16777216.0f ([0x4B800000]): the height exceeds the font size, the
    conversion rounds it to 16777216.0f, and the setting is false. *)
Lemma get_multi_line_setting_rounds_height :
  FontBufferParameters.get_multi_line_setting
    (FontBufferParameters.make 0 1 2 1266679808
       (mathfu.Vec2i 200 16777217) kTextAlignmentLeft 0 false) = false /\
  FontBufferParameters.get_text_alignment
    (FontBufferParameters.make 0 1 2 1266679808
       (mathfu.Vec2i 200 16777217) kTextAlignmentLeft 0 false)
  = kTextAlignmentLeft /\
  exceeds 16777217 1266679808 /\
  Float32.of_int32_t 16777217 = Float32.to_spec 1266679808.
Proof.
  split; [vm_compute; reflexivity |].
  split; [vm_compute; reflexivity |].
  split; [vm_compute; reflexivity |].
  vm_compute. reflexivity.
Qed.

(** ** C2: [operator==] *)

Lemma vec2i_eq (u v : mathfu.vec2i) :
  mathfu.x u = mathfu.x v -> mathfu.y u = mathfu.y v -> u = v.
Proof. destruct u, v. cbn. now intros -> ->. Qed.

(** C2, as the code has it.  [operator==] returns true if and only if
    [font_id_], [text_id_], both components of [size_] and the whole flags
    word match exactly and the two font sizes are equal as IEEE-754
    floats: font sizes with the same bit pattern compare equal unless the
    pattern is a NaN, and [+0.0] and [-0.0] compare equal although their
    patterns differ. *)
Theorem operator_eq_iff (a b : FontBufferParameters.t) :
  Float32.is_float32 (font_size_ a) -> Float32.is_float32 (font_size_ b) ->
  (FontBufferParameters.operator_eq a b = true <->
   font_id_ a = font_id_ b /\ text_id_ a = text_id_ b /\
   size_ a = size_ b /\ flags_value_ a = flags_value_ b /\
   ((font_size_ a = font_size_ b /\ Float32.is_nan (font_size_ a) = false) \/
    (Float32.is_zero (font_size_ a) = true /\
     Float32.is_zero (font_size_ b) = true))).
Proof.
  intros Ha Hb. unfold FontBufferParameters.operator_eq.
  rewrite !Bool.andb_true_iff, !Z.eqb_eq, (float_eqb_iff _ _ Ha Hb).
  split.
  - intros (((((Hf & Ht) & Hs) & Hx) & Hy) & Hv).
    repeat split; auto using vec2i_eq.
  - intros (Hf & Ht & Hsz & Hv & Hs). rewrite Hsz. repeat split; auto.
Qed.

(** Two copies of a 32-pixel key compare equal. *)
Lemma operator_eq_iff_witness :
  FontBufferParameters.operator_eq
    (FontBufferParameters.Build 1 2 1107296256 (mathfu.Vec2i 0 0) 0)
    (FontBufferParameters.Build 1 2 1107296256 (mathfu.Vec2i 0 0) 0) = true.
Proof.
  apply (operator_eq_iff
           (FontBufferParameters.Build 1 2 1107296256 (mathfu.Vec2i 0 0) 0)
           (FontBufferParameters.Build 1 2 1107296256 (mathfu.Vec2i 0 0) 0)).
  - cbv. split; congruence.
  - cbv. split; congruence.
  - repeat split. left. split; reflexivity.
Defined.

(** C2 fails as stated.  A key whose font size is the NaN [0x7FC00000]
    does not compare equal to its own copy, although every field matches
    bit for bit; and two keys whose font sizes are [+0.0] ([0x00000000])
    and [-0.0] ([0x80000000]) compare equal, although the bit patterns
    differ. *)
Lemma operator_eq_not_bitwise :
  FontBufferParameters.operator_eq
    (FontBufferParameters.Build 1 2 2143289344 (mathfu.Vec2i 0 0) 0)
    (FontBufferParameters.Build 1 2 2143289344 (mathfu.Vec2i 0 0) 0) = false /\
  FontBufferParameters.operator_eq
    (FontBufferParameters.Build 1 2 0 (mathfu.Vec2i 0 0) 0)
    (FontBufferParameters.Build 1 2 2147483648 (mathfu.Vec2i 0 0) 0) = true /\
  (0 =? 2147483648) = false.
Proof. repeat split. Qed.

(** ** C1: fingerprints of equal and of different tuples *)

(** C1 fails on the seven-argument constructor.  It assigns the three
    bit-fields and leaves the other 26 bits of [flags_value_] as the
    storage had them, while [operator==] (and the hash) read the whole
    word: two keys built from one and the same tuple compare unequal as
    soon as their storage differed in one of those bits. *)
Theorem make_exposes_storage
    (storage1 storage2 font_id text_id font_size : Z) (size : mathfu.vec2i)
    (text_alignment glyph_flags : Z) (caret_info : bool) (i : Z) :
  6 <= i ->
  Z.testbit storage1 i <> Z.testbit storage2 i ->
  FontBufferParameters.operator_eq
    (FontBufferParameters.make storage1 font_id text_id font_size size
       text_alignment glyph_flags caret_info)
    (FontBufferParameters.make storage2 font_id text_id font_size size
       text_alignment glyph_flags caret_info) = false.
Proof.
  intros Hi Hbit. unfold FontBufferParameters.operator_eq.
  match goal with |- _ && (?v1 =? ?v2) = false =>
    destruct (Z.eqb_spec v1 v2) as [Heq | Hne] end.
  - exfalso. apply Hbit.
    rewrite <- (make_keeps_storage_bit storage1 font_id text_id font_size size
                  text_alignment glyph_flags caret_info i Hi).
    rewrite <- (make_keeps_storage_bit storage2 font_id text_id font_size size
                  text_alignment glyph_flags caret_info i Hi).
    now rewrite Heq.
  - apply Bool.andb_false_r.
Qed.

(** The key of the text with id 2 in font 1 at 32 pixels, left aligned,
    built once over zeroed storage and once over storage with bit 6 set. *)
Lemma make_exposes_storage_witness :
  FontBufferParameters.operator_eq
    (FontBufferParameters.make 0 1 2 1107296256 (mathfu.Vec2i 0 0)
       kTextAlignmentLeft 0 false)
    (FontBufferParameters.make 64 1 2 1107296256 (mathfu.Vec2i 0 0)
       kTextAlignmentLeft 0 false) = false.
Proof.
  apply (make_exposes_storage 0 64 1 2 1107296256 (mathfu.Vec2i 0 0)
           kTextAlignmentLeft 0 false 6).
  - lia.
  - cbn. discriminate.
Defined.

(** What does hold: over the same storage, keys built from the same tuple
    compare equal (unless the font size is a NaN) and hash alike. *)
Lemma make_same_storage_equal
    (hashed_id_bits : Z) (std_hash_float std_hash_int32_t : Z -> Z)
    (hasher : FontBufferParameters.t)
    (storage font_id text_id font_size : Z) (size : mathfu.vec2i)
    (text_alignment glyph_flags : Z) (caret_info : bool) :
  Float32.is_float32 font_size -> Float32.is_nan font_size = false ->
  let key :=
    FontBufferParameters.make storage font_id text_id font_size size
      text_alignment glyph_flags caret_info in
  FontBufferParameters.operator_eq key key = true /\
  FontBufferParameters.operator_call hashed_id_bits std_hash_float
    std_hash_int32_t hasher key =
  FontBufferParameters.operator_call hashed_id_bits std_hash_float
    std_hash_int32_t hasher key.
Proof.
  intros Hf Hnan key. split; [| reflexivity].
  unfold FontBufferParameters.operator_eq.
  rewrite !Z.eqb_refl, !Bool.andb_true_r. cbn [andb].
  apply (float_eqb_iff _ _ Hf Hf). left. now split.
Qed.

(** The hash reads [font_id_] and [text_id_] of the hasher object, not of
    the key: two keys that differ in nothing but these two ids hash
    alike. *)
Lemma operator_call_skips_key_ids
    (hashed_id_bits : Z) (std_hash_float std_hash_int32_t : Z -> Z)
    (hasher key key' : FontBufferParameters.t) :
  font_size_ key = font_size_ key' -> size_ key = size_ key' ->
  flags_value_ key = flags_value_ key' ->
  FontBufferParameters.operator_call hashed_id_bits std_hash_float
    std_hash_int32_t hasher key =
  FontBufferParameters.operator_call hashed_id_bits std_hash_float
    std_hash_int32_t hasher key'.
Proof.
  intros Hs Hsz Hv. unfold FontBufferParameters.operator_call.
  now rewrite Hs, Hsz, Hv.
Qed.

(** And over the same storage, keys that compare equal were built from
    tuples that agree in every field: the alignment, glyph flags and caret
    flag are read back from the flags word, the font sizes are equal as
    floats. *)
Lemma make_same_storage_distinct
    (storage font_id font_id' text_id text_id' font_size font_size' : Z)
    (size size' : mathfu.vec2i)
    (text_alignment text_alignment' glyph_flags glyph_flags' : Z)
    (caret_info caret_info' : bool) :
  0 <= text_alignment < 8 -> 0 <= text_alignment' < 8 ->
  0 <= glyph_flags < 4 -> 0 <= glyph_flags' < 4 ->
  FontBufferParameters.operator_eq
    (FontBufferParameters.make storage font_id text_id font_size size
       text_alignment glyph_flags caret_info)
    (FontBufferParameters.make storage font_id' text_id' font_size' size'
       text_alignment' glyph_flags' caret_info') = true ->
  font_id = font_id' /\ text_id = text_id' /\ size = size' /\
  text_alignment = text_alignment' /\ glyph_flags = glyph_flags' /\
  caret_info = caret_info' /\ Float32.eqb font_size font_size' = true.
Proof.
  intros Ha Ha' Hg Hg' Heq.
  unfold FontBufferParameters.operator_eq in Heq.
  rewrite !Bool.andb_true_iff, !Z.eqb_eq in Heq.
  destruct Heq as (((((Hf & Ht) & Hs) & Hx) & Hy) & Hv).
  pose proof (get_text_alignment_make storage font_id text_id font_size size
                text_alignment glyph_flags caret_info) as A1.
  pose proof (get_text_alignment_make storage font_id' text_id' font_size'
                size' text_alignment' glyph_flags' caret_info') as A2.
  pose proof (get_glyph_flags_make storage font_id text_id font_size size
                text_alignment glyph_flags caret_info) as G1.
  pose proof (get_glyph_flags_make storage font_id' text_id' font_size'
                size' text_alignment' glyph_flags' caret_info') as G2.
  pose proof (get_caret_info_flag_make storage font_id text_id font_size size
                text_alignment glyph_flags caret_info) as C1.
  pose proof (get_caret_info_flag_make storage font_id' text_id' font_size'
                size' text_alignment' glyph_flags' caret_info') as C2.
  unfold FontBufferParameters.get_text_alignment in A1, A2.
  unfold FontBufferParameters.get_glyph_flags in G1, G2.
  unfold FontBufferParameters.get_caret_info_flag in C1, C2.
  rewrite Hv in A1, G1, C1.
  rewrite A2 in A1. rewrite G2 in G1. rewrite C2 in C1.
  rewrite !Z.mod_small in A1, G1 by lia.
  cbn [font_id_ text_id_ font_size_ size_ FontBufferParameters.make]
    in Hf, Ht, Hs, Hx, Hy.
  repeat split; auto using vec2i_eq.
Qed.

(** ** C7: the sign constraints of FontMetrics *)

Lemma assert_Some (c : bool) : assert c = Some tt <-> c = true.
Proof. destruct c; cbn; split; congruence. Qed.

Lemma assert_None (c : bool) : assert c = None <-> c = false.
Proof. destruct c; cbn; split; congruence. Qed.

(** The five-argument constructor returns exactly when its four
    assertions hold, and then with the fields it was given. *)
Lemma FontMetrics_make_Some (b il a d el : Z) (this : FontMetrics.t) :
  FontMetrics.make b il a d el = Some this <->
  this = FontMetrics.Build b il a d el /\ 0 <= il /\ 0 <= a /\ d <= 0 /\ el <= 0.
Proof.
  unfold FontMetrics.make, assert.
  destruct (Z.geb_spec il 0), (Z.geb_spec a 0), (Z.leb_spec d 0),
    (Z.leb_spec el 0); split; try discriminate;
    try (intros [= <-]; repeat split; lia);
    try (intros (-> & ?); reflexivity || lia); intros (_ & ?); lia.
Qed.

Lemma FontMetrics_make_None (b il a d el : Z) :
  FontMetrics.make b il a d el = None <-> il < 0 \/ a < 0 \/ 0 < d \/ 0 < el.
Proof.
  unfold FontMetrics.make, assert.
  destruct (Z.geb_spec il 0), (Z.geb_spec a 0), (Z.leb_spec d 0),
    (Z.leb_spec el 0); split; try discriminate; try lia; reflexivity.
Qed.

(** A setter aborts exactly when its argument breaks the sign constraint
    of its field. *)
Lemma FontMetrics_apply_None (u : FontMetrics.update) (this : FontMetrics.t) :
  FontMetrics.apply u this = None <-> FontMetrics.violates u.
Proof.
  destruct u as [v | v | v | v | v]; cbn;
    unfold FontMetrics.set_base_line, FontMetrics.set_internal_leading,
      FontMetrics.set_ascender, FontMetrics.set_descender,
      FontMetrics.set_external_leading, assert.
  - split; [discriminate | contradiction].
  - destruct (Z.geb_spec v 0); split; try discriminate; try lia; reflexivity.
  - destruct (Z.geb_spec v 0); split; try discriminate; try lia; reflexivity.
  - destruct (Z.leb_spec v 0); split; try discriminate; try lia; reflexivity.
  - destruct (Z.leb_spec v 0); split; try discriminate; try lia; reflexivity.
Qed.

(** A setter that returns keeps the sign constraints. *)
Lemma FontMetrics_apply_keeps (u : FontMetrics.update)
    (this this' : FontMetrics.t) :
  FontMetrics.sign_constraints this ->
  FontMetrics.apply u this = Some this' ->
  FontMetrics.sign_constraints this'.
Proof.
  unfold FontMetrics.sign_constraints.
  intros (Hil & Ha & Hd & Hel).
  destruct u as [v | v | v | v | v]; cbn;
    unfold FontMetrics.set_base_line, FontMetrics.set_internal_leading,
      FontMetrics.set_ascender, FontMetrics.set_descender,
      FontMetrics.set_external_leading, assert.
  - intros [= <-]. cbn. auto.
  - destruct (Z.geb_spec v 0); [| discriminate]. intros [= <-]. cbn. lia.
  - destruct (Z.geb_spec v 0); [| discriminate]. intros [= <-]. cbn. lia.
  - destruct (Z.leb_spec v 0); [| discriminate]. intros [= <-]. cbn. lia.
  - destruct (Z.leb_spec v 0); [| discriminate]. intros [= <-]. cbn. lia.
Qed.

(** C7.  For every [FontMetrics] object that a program can hold (built by
    either constructor, then changed by any number of setter calls), the
    sign constraints [internal_leading >= 0], [ascender >= 0],
    [descender <= 0], [external_leading <= 0] hold; a setter call whose
    argument would violate a constraint fails its assertion and returns no
    object, every other setter call returns an object that satisfies the
    constraints; and the five-argument constructor fails its assertions
    exactly on arguments that violate a constraint. *)
Theorem sign_constraints_invariant (this : FontMetrics.t) :
  FontMetrics.reachable this ->
  FontMetrics.sign_constraints this /\
  (forall u, FontMetrics.apply u this = None <-> FontMetrics.violates u) /\
  (forall u this', FontMetrics.apply u this = Some this' ->
                   FontMetrics.sign_constraints this') /\
  (forall b il a d el,
     FontMetrics.make b il a d el = None <->
     il < 0 \/ a < 0 \/ 0 < d \/ 0 < el).
Proof.
  intros Hreach.
  assert (FontMetrics.sign_constraints this) as Hinv.
  { induction Hreach as [| b il a d el this Hmake | u this this' _ IH Happly].
    - unfold FontMetrics.sign_constraints. cbn. lia.
    - apply FontMetrics_make_Some in Hmake.
      destruct Hmake as (-> & ?). unfold FontMetrics.sign_constraints. cbn.
      lia.
    - eapply FontMetrics_apply_keeps; eassumption. }
  split; [exact Hinv |]. split; [| split].
  - intros u. apply FontMetrics_apply_None.
  - intros u this' Happly. eapply FontMetrics_apply_keeps; eassumption.
  - intros b il a d el. apply FontMetrics_make_None.
Qed.

(** Metrics built with ascender 10 and descender -2, whose ascender is then
    raised to 12. *)
Lemma sign_constraints_invariant_witness :
  FontMetrics.sign_constraints (FontMetrics.Build 0 1 12 (-2) (-1)) /\
  FontMetrics.set_descender 3 (FontMetrics.Build 0 1 12 (-2) (-1)) = None.
Proof.
  assert (FontMetrics.reachable (FontMetrics.Build 0 1 12 (-2) (-1))) as Hreach.
  { apply (FontMetrics.reachable_apply (FontMetrics.SetAscender 12)
             (FontMetrics.Build 0 1 10 (-2) (-1))).
    - apply (FontMetrics.reachable_make 0 1 10 (-2) (-1)). reflexivity.
    - reflexivity. }
  destruct (sign_constraints_invariant _ Hreach) as (Hinv & Habort & _).
  split; [exact Hinv |].
  apply (Habort (FontMetrics.SetDescender 3)). cbn. lia.
Defined.

(** ** C8: [total] under growth-only updates *)

Lemma to_int32_t_add_l (x y : Z) :
  to_int32_t (to_int32_t x + y) = to_int32_t (x + y).
Proof.
  unfold to_int32_t, to_signed. f_equal.
  replace ((x + 2 ^ (32 - 1)) mod 2 ^ 32 - 2 ^ (32 - 1) + y + 2 ^ (32 - 1))
    with ((x + 2 ^ (32 - 1)) mod 2 ^ 32 + y) by lia.
  rewrite Z.add_mod_idemp_l by (cbv; congruence).
  f_equal. lia.
Qed.

(** [total] is the exact sum, reduced to an [int32_t]. *)
Lemma total_wraps_exact_total (this : FontMetrics.t) :
  FontMetrics.total this = to_int32_t (FontMetrics.exact_total this).
Proof.
  unfold FontMetrics.total, FontMetrics.exact_total, sub_int32_t, add_int32_t.
  replace (to_int32_t (FontMetrics.internal_leading_ this
                       + FontMetrics.ascender_ this)
           - FontMetrics.descender_ this)
    with (to_int32_t (FontMetrics.internal_leading_ this
                      + FontMetrics.ascender_ this)
          + - FontMetrics.descender_ this) by lia.
  rewrite to_int32_t_add_l.
  replace (to_int32_t (FontMetrics.internal_leading_ this
                       + FontMetrics.ascender_ this
                       + - FontMetrics.descender_ this)
           - FontMetrics.external_leading_ this)
    with (to_int32_t (FontMetrics.internal_leading_ this
                      + FontMetrics.ascender_ this
                      + - FontMetrics.descender_ this)
          + - FontMetrics.external_leading_ this) by lia.
  rewrite to_int32_t_add_l. apply f_equal. lia.
Qed.

(** One growth step from metrics that satisfy the sign constraints passes
    its assertion and does not lower the exact total. *)
Lemma growth_step_grows (u : FontMetrics.update) (this : FontMetrics.t) :
  FontMetrics.sign_constraints this ->
  FontMetrics.growth_step this u = true ->
  exists this',
    FontMetrics.apply u this = Some this' /\
    FontMetrics.exact_total this <= FontMetrics.exact_total this'.
Proof.
  unfold FontMetrics.sign_constraints, FontMetrics.exact_total.
  intros (Hil & Ha & Hd & Hel).
  destruct u as [v | v | v | v | v]; cbn;
    unfold FontMetrics.set_base_line, FontMetrics.set_internal_leading,
      FontMetrics.set_ascender, FontMetrics.set_descender,
      FontMetrics.set_external_leading, assert; intros Hstep.
  - eexists. split; [reflexivity |]. cbn. lia.
  - replace (v >=? 0) with true by lia.
    eexists. split; [reflexivity |]. cbn. lia.
  - replace (v >=? 0) with true by lia.
    eexists. split; [reflexivity |]. cbn. lia.
  - replace (v <=? 0) with true by lia.
    eexists. split; [reflexivity |]. cbn. lia.
  - replace (v <=? 0) with true by lia.
    eexists. split; [reflexivity |]. cbn. lia.
Qed.

(** C8, as the code has it.  [total] is not invariant but monotone: a
    sequence of setter calls each of which does not lower
    [internal_leading] or [ascender] and does not raise [descender] or
    [external_leading] (so no magnitude shrinks), started on metrics that
    satisfy the sign constraints, passes every assertion, ends in metrics
    that satisfy the sign constraints, and never lowers the total height;
    the [int32_t] that [total] returns does not decrease as long as the
    final height fits an [int32_t]. *)
Theorem total_monotone_under_growth (us : list FontMetrics.update)
    (this : FontMetrics.t) :
  FontMetrics.sign_constraints this ->
  FontMetrics.all_steps FontMetrics.growth_step us this = true ->
  exists this',
    FontMetrics.run us this = Some this' /\
    FontMetrics.sign_constraints this' /\
    FontMetrics.exact_total this <= FontMetrics.exact_total this' /\
    (is_int32_t (FontMetrics.exact_total this') ->
     FontMetrics.total this <= FontMetrics.total this').
Proof.
  intros Hinv Hsteps.
  assert (exists this',
             FontMetrics.run us this = Some this' /\
             FontMetrics.sign_constraints this' /\
             FontMetrics.exact_total this <= FontMetrics.exact_total this')
    as (this' & Hrun & Hinv' & Hle).
  { revert this Hinv Hsteps.
    induction us as [| u rest IH]; intros this Hinv Hsteps.
    - exists this. cbn. repeat split; try apply Hinv. lia.
    - cbn in Hsteps. apply Bool.andb_true_iff in Hsteps.
      destruct Hsteps as (Hstep & Hrest).
      destruct (growth_step_grows u this Hinv Hstep) as (mid & Happly & Hle1).
      rewrite Happly in Hrest.
      assert (FontMetrics.sign_constraints mid) as Hmid
          by (eapply FontMetrics_apply_keeps; eassumption).
      destruct (IH mid Hmid Hrest) as (this' & Hrun & Hinv' & Hle2).
      exists this'. cbn. rewrite Happly. repeat split; try apply Hinv'; auto.
      lia. }
  exists this'. repeat split; try apply Hinv'; auto.
  intros Hfit. rewrite !total_wraps_exact_total.
  assert (0 <= FontMetrics.exact_total this) as Hpos.
  { unfold FontMetrics.sign_constraints, FontMetrics.exact_total in *. lia. }
  rewrite (to_int32_t_id (FontMetrics.exact_total this')) by assumption.
  rewrite to_int32_t_id; [assumption |].
  unfold is_int32_t in *. lia.
Qed.

(** Ascender raised from 10 to 12, then descender lowered from -2 to -5:
    the total goes from 12 to 17. *)
Lemma total_monotone_under_growth_witness :
  exists this',
    FontMetrics.run [FontMetrics.SetAscender 12; FontMetrics.SetDescender (-5)]
      (FontMetrics.Build 0 0 10 (-2) 0) = Some this' /\
    FontMetrics.sign_constraints this' /\
    FontMetrics.exact_total (FontMetrics.Build 0 0 10 (-2) 0)
      <= FontMetrics.exact_total this' /\
    (is_int32_t (FontMetrics.exact_total this') ->
     FontMetrics.total (FontMetrics.Build 0 0 10 (-2) 0)
       <= FontMetrics.total this').
Proof.
  apply (total_monotone_under_growth
           [FontMetrics.SetAscender 12; FontMetrics.SetDescender (-5)]
           (FontMetrics.Build 0 0 10 (-2) 0)).
  - unfold FontMetrics.sign_constraints. cbn. lia.
  - reflexivity.
Defined.

(** C8 fails as stated.  Raising the ascender from 10 to 11 is an update
    that increases a magnitude, and it changes [total] from 12 to 13;
    raising the descender from -2 to -1 is an update that decreases a
    magnitude, and it changes [total] from 12 to 11. *)
Lemma total_not_invariant :
  FontMetrics.all_steps FontMetrics.magnitude_step [FontMetrics.SetAscender 11]
    (FontMetrics.Build 0 0 10 (-2) 0) = true /\
  FontMetrics.run [FontMetrics.SetAscender 11]
    (FontMetrics.Build 0 0 10 (-2) 0)
  = Some (FontMetrics.Build 0 0 11 (-2) 0) /\
  FontMetrics.total (FontMetrics.Build 0 0 10 (-2) 0) = 12 /\
  FontMetrics.total (FontMetrics.Build 0 0 11 (-2) 0) = 13 /\
  FontMetrics.all_steps FontMetrics.magnitude_step
    [FontMetrics.SetDescender (-1)] (FontMetrics.Build 0 0 10 (-2) 0) = true /\
  FontMetrics.run [FontMetrics.SetDescender (-1)]
    (FontMetrics.Build 0 0 10 (-2) 0)
  = Some (FontMetrics.Build 0 0 10 (-1) 0) /\
  FontMetrics.total (FontMetrics.Build 0 0 10 (-1) 0) = 11.
Proof. repeat split. Qed.

(** ** std::vector *)

Lemma vector_size_nonneg {A : Type} (v : vector.t A) : 0 <= vector.size v.
Proof. unfold vector.size. lia. Qed.

Lemma vector_size_reserve {A : Type} (n : Z) (v : vector.t A) :
  vector.size (vector.reserve n v) = vector.size v.
Proof. unfold vector.reserve. now destruct (vector.capacity v <? n). Qed.

Lemma vector_size_push_back {A : Type} (a : A) (v : vector.t A) :
  vector.size (vector.push_back a v) = vector.size v + 1.
Proof.
  unfold vector.size, vector.push_back. cbn.
  rewrite length_app. cbn. lia.
Qed.

Lemma vector_capacity_reserve {A : Type} (n : Z) (v : vector.t A) :
  vector.capacity (vector.reserve n v) = Z.max n (vector.capacity v).
Proof.
  unfold vector.reserve.
  destruct (Z.ltb_spec (vector.capacity v) n); cbn; lia.
Qed.

(** A vector that has been pushed to owns storage. *)
Lemma vector_capacity_push_back {A : Type} (a : A) (v : vector.t A) :
  0 < vector.capacity (vector.push_back a v).
Proof.
  unfold vector.push_back. cbn.
  pose proof (vector_size_nonneg v).
  destruct (Z.ltb_spec (vector.size v) (vector.capacity v)); lia.
Qed.

(** ** C3: the array lengths of a FontBuffer *)

Lemma lengths_agree_default (size0 : mathfu.vec2i) (pass0 : Z) :
  FontBuffer.lengths_agree (FontBuffer.default size0 pass0).
Proof. split; reflexivity. Qed.

Lemma lengths_agree_make (size0 : mathfu.vec2i) (pass0 size : Z)
    (caret_info : bool) :
  FontBuffer.lengths_agree (FontBuffer.make size0 pass0 size caret_info).
Proof.
  unfold FontBuffer.lengths_agree, FontBuffer.make. cbn.
  rewrite !vector_size_reserve. split; reflexivity.
Qed.

(** [Verify] passes its assertions exactly when the lengths agree. *)
Lemma Verify_Some_iff (this : FontBuffer.t) :
  FontBuffer.within_max_size this ->
  FontBuffer.Verify this = Some (true, this) <-> FontBuffer.lengths_agree this.
Proof.
  unfold FontBuffer.within_max_size, FontBuffer.Verify,
    FontBuffer.lengths_agree, mul_size_t, assert,
    FontBuffer.kVerticesPerCodePoint, FontBuffer.kIndiciesPerCodePoint.
  intros Hmax.
  pose proof (vector_size_nonneg (FontBuffer.code_points_ this)) as Hpos.
  assert (vector.max_size 4 = 2305843009213693951) as Hm by reflexivity.
  rewrite Hm in Hmax.
  rewrite !to_size_t_id
    by (change (2 ^ 64) with 18446744073709551616; lia).
  destruct (Z.eqb_spec (vector.size (FontBuffer.vertices_ this))
              (vector.size (FontBuffer.code_points_ this) * 4)) as [Hv | Hv];
    destruct (Z.eqb_spec (vector.size (FontBuffer.indices_ this))
                (vector.size (FontBuffer.code_points_ this) * 6)) as [Hi | Hi];
    split; try discriminate; try reflexivity; try lia.
Qed.

Lemma Verify_None_iff (this : FontBuffer.t) :
  FontBuffer.within_max_size this ->
  FontBuffer.Verify this = None <-> ~ FontBuffer.lengths_agree this.
Proof.
  intros Hmax. rewrite <- (Verify_Some_iff this Hmax).
  unfold FontBuffer.Verify.
  destruct (assert _); [destruct (assert _) |]; split;
    congruence || (intros H; exfalso; apply H; reflexivity) || discriminate.
Qed.

(** [Verify] hands the buffer back as it was. *)
Lemma Verify_returns_unchanged (this this' : FontBuffer.t) (result : bool) :
  FontBuffer.Verify this = Some (result, this') ->
  result = true /\ this' = this.
Proof.
  unfold FontBuffer.Verify.
  destruct (assert _); [| discriminate].
  destruct (assert _); [| discriminate].
  intros [= <- <-]. now split.
Qed.

(** Between the calls that append a glyph the lengths do not agree: a code
    point without its indices and vertices is what [Verify] is there to
    catch. *)
Lemma AddCodepoint_alone (codepoint : Z) (this : FontBuffer.t) :
  FontBuffer.lengths_agree this ->
  ~ FontBuffer.lengths_agree (FontBuffer.AddCodepoint codepoint this).
Proof.
  intros (Hv & Hi) (Hv' & _).
  unfold FontBuffer.AddCodepoint in Hv'.
  cbn [FontBuffer.vertices_ FontBuffer.code_points_] in Hv'.
  rewrite vector_size_push_back in Hv'. lia.
Qed.

(** ** C9: [GetCaretPosition] *)

Lemma vector_subscript_in_range {A : Type} (v : vector.t A) (index : Z) :
  0 <= index < vector.size v ->
  exists a, vector.subscript v index = Some a /\
            nth_error (vector.data v) (Z.to_nat index) = Some a.
Proof.
  intros H. unfold vector.subscript.
  replace ((0 <=? index) && (index <? vector.size v)) with true by lia.
  destruct (nth_error (vector.data v) (Z.to_nat index)) as [a |] eqn:E.
  - now exists a.
  - apply nth_error_None in E. unfold vector.size in H. lia.
Qed.

(** C9 fails at the index just past the last caret position.  The guard of
    [GetCaretPosition] tests [index > size] where the stored positions end
    at [size - 1]: in a buffer that owns caret storage,
    [GetCaretPosition(size)] does not return [kCaretPositionInvalid] but
    reads the array past its end. *)
Theorem GetCaretPosition_at_size (this : FontBuffer.t) :
  vector.capacity (FontBuffer.caret_positions_ this) <> 0 ->
  FontBuffer.GetCaretPosition this
    (vector.size (FontBuffer.caret_positions_ this)) = None.
Proof.
  intros Hcap. unfold FontBuffer.GetCaretPosition, vector.subscript.
  destruct (Z.eqb_spec (vector.capacity (FontBuffer.caret_positions_ this)) 0);
    [contradiction |].
  rewrite Z.ltb_irrefl. cbn [orb].
  now rewrite Bool.andb_false_r.
Qed.

(** The buffer of a one-glyph string with caret information, before any
    caret position is added, asked for caret position 0. *)
Lemma GetCaretPosition_at_size_witness :
  FontBuffer.GetCaretPosition (FontBuffer.make mathfu.kZeros2i 0 1 true) 0
  = None.
Proof.
  apply (GetCaretPosition_at_size (FontBuffer.make mathfu.kZeros2i 0 1 true)).
  cbv. congruence.
Defined.

(** Everywhere else [GetCaretPosition] does what its comment says: the
    stored position below [size], [kCaretPositionInvalid] without caret
    storage and above [size]. *)
Lemma GetCaretPosition_elsewhere (this : FontBuffer.t) (index : Z) :
  0 <= index ->
  (vector.capacity (FontBuffer.caret_positions_ this) = 0 ->
   FontBuffer.GetCaretPosition this index = Some kCaretPositionInvalid) /\
  (vector.size (FontBuffer.caret_positions_ this) < index ->
   FontBuffer.GetCaretPosition this index = Some kCaretPositionInvalid) /\
  (vector.capacity (FontBuffer.caret_positions_ this) <> 0 ->
   index < vector.size (FontBuffer.caret_positions_ this) ->
   exists position,
     FontBuffer.GetCaretPosition this index = Some position /\
     nth_error (vector.data (FontBuffer.caret_positions_ this))
       (Z.to_nat index) = Some position).
Proof.
  intros Hindex. unfold FontBuffer.GetCaretPosition. repeat split.
  - intros ->. reflexivity.
  - intros Hlt.
    replace (vector.size (FontBuffer.caret_positions_ this) <? index)
      with true by lia.
    now rewrite Bool.orb_true_r.
  - intros Hcap Hlt.
    replace (vector.capacity (FontBuffer.caret_positions_ this) =? 0)
      with false by lia.
    replace (vector.size (FontBuffer.caret_positions_ this) <? index)
      with false by lia.
    cbn [orb]. apply vector_subscript_in_range. lia.
Qed.

(** ** C10: [HasCaretPositions] *)

Lemma mutate_keeps_caret_positions (m : FontBuffer.mutation)
    (this : FontBuffer.t) :
  FontBuffer.caret_positions_ (FontBuffer.mutate m this)
  = FontBuffer.caret_positions_ this.
Proof. now destruct m. Qed.

Lemma mutate_all_keeps_caret_positions (ms : list FontBuffer.mutation)
    (this : FontBuffer.t) :
  FontBuffer.caret_positions_ (FontBuffer.mutate_all ms this)
  = FontBuffer.caret_positions_ this.
Proof.
  revert this. induction ms as [| m rest IH]; intros this; cbn.
  - reflexivity.
  - unfold FontBuffer.mutate_all in IH. rewrite IH.
    apply mutate_keeps_caret_positions.
Qed.



(** The bound on the size is the one of the [uint32_t] sum [size + 1]: if
    every reserve of a buffer of [0xFFFFFFFF] glyphs were granted, the sum
    would be 0 and nothing would be reserved for the caret positions. *)
Lemma HasCaretPositions_false_at_max_size :
  FontBuffer.HasCaretPositions
    (FontBuffer.make mathfu.kZeros2i 0 4294967295 true) = false.
Proof. reflexivity. Qed.

(** Once a caret position has been pushed, the capacity is not zero. *)
Lemma HasCaretPositions_after_push_back (position : mathfu.vec2i)
    (this : FontBuffer.t) :
  negb (vector.capacity
          (vector.push_back position (FontBuffer.caret_positions_ this)) =? 0)
  = true.
Proof.
  pose proof (vector_capacity_push_back position
                (FontBuffer.caret_positions_ this)).
  lia.
Qed.

(** ** C4: [GetBuffer] and a glyph cache that is full *)

Section GetBufferFacts.

Variable GlyphCache : Type.
Variable GlyphCacheEntry : Type.
Variable lookup_or_create :
  Z -> Z -> Z -> GlyphCache -> option GlyphCacheEntry * GlyphCache.
Variable Flush : GlyphCache -> GlyphCache.
Variable cache_revision : GlyphCache -> Z.
Variable LayoutText : list Z -> FontBufferParameters.t -> list Z.
Variable pixel_size : FontBufferParameters.t -> Z.
Variable quad :
  GlyphCacheEntry -> FontVertex * FontVertex * FontVertex * FontVertex.

Local Abbreviation place_glyphs :=
  (FontManager.place_glyphs GlyphCache GlyphCacheEntry lookup_or_create quad).
Local Abbreviation first_miss :=
  (FontManager.first_miss GlyphCache GlyphCacheEntry lookup_or_create).
Local Abbreviation by_lookups :=
  (FontManager.by_lookups GlyphCache GlyphCacheEntry lookup_or_create).
Local Abbreviation AddGlyph := (FontManager.AddGlyph GlyphCacheEntry quad).
Local Abbreviation CreateBuffer :=
  (FontManager.CreateBuffer GlyphCache GlyphCacheEntry lookup_or_create
     cache_revision LayoutText pixel_size quad).
Local Abbreviation GetBuffer :=
  (FontManager.GetBuffer GlyphCache GlyphCacheEntry lookup_or_create
     cache_revision LayoutText pixel_size quad).
Local Abbreviation find_current := (FontManager.find_current GlyphCache cache_revision).
Local Abbreviation FlushAndUpdate :=
  (FontManager.FlushAndUpdate GlyphCache Flush cache_revision).

(** What one glyph adds to the three arrays. *)
Lemma AddGlyph_arrays (code_point : Z) (entry : GlyphCacheEntry)
    (buffer : FontBuffer.t) :
  vector.data (FontBuffer.code_points_ (AddGlyph code_point entry buffer))
  = vector.data (FontBuffer.code_points_ buffer) ++ [code_point] /\
  vector.size (FontBuffer.vertices_ (AddGlyph code_point entry buffer))
  = vector.size (FontBuffer.vertices_ buffer) + 4 /\
  vector.size (FontBuffer.indices_ (AddGlyph code_point entry buffer))
  = vector.size (FontBuffer.indices_ buffer) + 6.
Proof.
  unfold FontManager.AddGlyph, FontManager.AddVertices, FontManager.AddIndices,
    FontBuffer.AddCodepoint.
  destruct (quad entry) as [[[v0 v1] v2] v3].
  cbn [FontBuffer.code_points_ FontBuffer.vertices_ FontBuffer.indices_].
  rewrite !vector_size_push_back. repeat split; lia.
Qed.

(** A run with a first miss is a miss as a whole. *)
Lemma place_glyphs_first_miss (ysize flags : Z) (glyphs : list Z) :
  forall (cache : GlyphCache) (buffer : FontBuffer.t) (code_point : Z),
    first_miss ysize flags glyphs cache = Some code_point ->
    fst (place_glyphs ysize flags glyphs cache buffer) = None.
Proof.
  induction glyphs as [| g rest IH]; intros cache buffer code_point; cbn.
  - discriminate.
  - destruct (lookup_or_create g ysize flags cache) as [[entry |] cache'].
    + apply IH.
    + reflexivity.
Qed.

(** A run without a miss is placed as a whole. *)
Lemma place_glyphs_no_miss (ysize flags : Z) (glyphs : list Z) :
  forall (cache : GlyphCache) (buffer : FontBuffer.t),
    first_miss ysize flags glyphs cache = None ->
    exists buffer',
      fst (place_glyphs ysize flags glyphs cache buffer) = Some buffer'.
Proof.
  induction glyphs as [| g rest IH]; intros cache buffer; cbn.
  - intros _. now exists buffer.
  - destruct (lookup_or_create g ysize flags cache) as [[entry |] cache'].
    + apply IH.
    + discriminate.
Qed.

(** The buffer that a run returns holds every glyph of the run. *)
Lemma place_glyphs_complete (ysize flags : Z) (glyphs : list Z) :
  forall (cache : GlyphCache) (buffer buffer' : FontBuffer.t),
    fst (place_glyphs ysize flags glyphs cache buffer) = Some buffer' ->
    first_miss ysize flags glyphs cache = None /\
    vector.data (FontBuffer.code_points_ buffer')
    = vector.data (FontBuffer.code_points_ buffer) ++ glyphs /\
    vector.size (FontBuffer.vertices_ buffer')
    = vector.size (FontBuffer.vertices_ buffer) + 4 * Z.of_nat (length glyphs) /\
    vector.size (FontBuffer.indices_ buffer')
    = vector.size (FontBuffer.indices_ buffer) + 6 * Z.of_nat (length glyphs).
Proof.
  induction glyphs as [| g rest IH]; intros cache buffer buffer'.
  - cbn. intros [= <-]. rewrite app_nil_r. repeat split; lia.
  - cbn [FontManager.place_glyphs FontManager.first_miss].
    destruct (lookup_or_create g ysize flags cache) as [[entry |] cache'].
    + intros Hplace. destruct (IH _ _ _ Hplace) as (Hmiss & Hc & Hv & Hi).
      destruct (AddGlyph_arrays g entry buffer) as (Gc & Gv & Gi).
      rewrite Gc in Hc. rewrite Gv in Hv. rewrite Gi in Hi.
      rewrite <- app_assoc in Hc. cbn [app] in Hc.
      cbn [length]. repeat split; try assumption; lia.
    + discriminate.
Qed.

(** A run touches the glyph cache through lookups only. *)
Lemma place_glyphs_by_lookups (ysize flags : Z) (glyphs : list Z) :
  forall (start cache : GlyphCache) (buffer : FontBuffer.t),
    by_lookups start cache ->
    by_lookups start (snd (place_glyphs ysize flags glyphs cache buffer)).
Proof.
  induction glyphs as [| g rest IH]; intros start cache buffer Hstart; cbn.
  - exact Hstart.
  - pose proof (FontManager.by_lookups_step _ _ lookup_or_create start cache
                  g ysize flags Hstart) as Hstep.
    destruct (lookup_or_create g ysize flags cache) as [[entry |] cache'].
    + apply IH. exact Hstep.
    + exact Hstep.
Qed.

(** C4.  When the buffer for a string has to be built and some glyph of
    the string cannot be placed in the glyph cache (the lookup of the glyph
    is a miss, which the cache answers only after its own eviction
    attempt), [GetBuffer] returns the miss signal; a buffer that [GetBuffer]
    builds holds every glyph of the string, with four vertices and six
    indices for each, so it is never partial, and a string without a miss
    does get its buffer.  [GetBuffer] itself reaches the glyph cache
    through lookups only and stays in the current pass: flushing is left to
    the caller, whose [FlushAndUpdate] replaces the glyph cache by the
    flushed one and starts the next pass. *)
Theorem GetBuffer_miss_or_complete (text : list Z)
    (parameters : FontBufferParameters.t) (this : FontManager.t GlyphCache) :
  find_current parameters this = None ->
  let glyphs := LayoutText text parameters in
  let miss :=
    first_miss (pixel_size parameters)
      (FontBufferParameters.get_glyph_flags parameters) glyphs
      (FontManager.glyph_cache_ GlyphCache this) in
  (forall code_point,
     miss = Some code_point -> fst (GetBuffer text parameters this) = None) /\
  (miss = None ->
   exists buffer, fst (GetBuffer text parameters this) = Some buffer) /\
  (forall buffer,
     fst (GetBuffer text parameters this) = Some buffer ->
     miss = None /\
     vector.data (FontBuffer.code_points_ buffer) = glyphs /\
     FontBuffer.lengths_agree buffer) /\
  by_lookups (FontManager.glyph_cache_ GlyphCache this)
    (FontManager.glyph_cache_ GlyphCache
       (snd (GetBuffer text parameters this))) /\
  FontManager.current_pass_ GlyphCache (snd (GetBuffer text parameters this))
  = FontManager.current_pass_ GlyphCache this /\
  FontManager.glyph_cache_ GlyphCache (FlushAndUpdate this)
  = Flush (FontManager.glyph_cache_ GlyphCache this) /\
  FontManager.current_pass_ GlyphCache (FlushAndUpdate this)
  = FontManager.current_pass_ GlyphCache this + 1.
Proof.
  intros Hfind glyphs miss.
  unfold FontManager.GetBuffer. rewrite Hfind.
  unfold FontManager.CreateBuffer. fold glyphs.
  set (fresh := FontBuffer.make _ _ _ _).
  pose proof (place_glyphs_first_miss (pixel_size parameters)
                (FontBufferParameters.get_glyph_flags parameters) glyphs
                (FontManager.glyph_cache_ GlyphCache this) fresh) as Hmiss.
  pose proof (place_glyphs_no_miss (pixel_size parameters)
                (FontBufferParameters.get_glyph_flags parameters) glyphs
                (FontManager.glyph_cache_ GlyphCache this) fresh) as Hnone.
  pose proof (place_glyphs_complete (pixel_size parameters)
                (FontBufferParameters.get_glyph_flags parameters) glyphs
                (FontManager.glyph_cache_ GlyphCache this) fresh) as Hall.
  pose proof (place_glyphs_by_lookups (pixel_size parameters)
                (FontBufferParameters.get_glyph_flags parameters) glyphs
                (FontManager.glyph_cache_ GlyphCache this)
                (FontManager.glyph_cache_ GlyphCache this) fresh
                (FontManager.by_lookups_refl _ _ _ _)) as Hlook.
  fold miss in Hmiss, Hnone, Hall.
  destruct (place_glyphs (pixel_size parameters)
              (FontBufferParameters.get_glyph_flags parameters) glyphs
              (FontManager.glyph_cache_ GlyphCache this) fresh)
    as [[built |] cache'] eqn:Hplace; cbn [fst snd] in *.
  - destruct (Hall built eq_refl) as (Hm & Hc & Hv & Hi).
    split; [| split; [| split; [| split; [| split; [| split]]]]];
      try reflexivity.
    + intros code_point Hsome. rewrite Hm in Hsome. discriminate.
    + intros _. eexists. reflexivity.
    + intros buffer [= <-]. split; [exact Hm |].
      unfold FontBuffer.lengths_agree, FontBuffer.set_pass,
        FontBuffer.set_revision.
      cbn [FontBuffer.code_points_ FontBuffer.vertices_ FontBuffer.indices_].
      assert (vector.size (FontBuffer.code_points_ built)
              = Z.of_nat (length glyphs)) as Hn.
      { unfold vector.size. rewrite Hc.
        unfold fresh, FontBuffer.make. cbn [FontBuffer.code_points_].
        unfold vector.reserve.
        destruct (_ <? _); cbn; reflexivity. }
      split.
      * rewrite Hc. unfold fresh, FontBuffer.make.
        cbn [FontBuffer.code_points_]. unfold vector.reserve.
        destruct (_ <? _); reflexivity.
      * rewrite Hv, Hi, Hn. unfold fresh, FontBuffer.make.
        cbn [FontBuffer.vertices_ FontBuffer.indices_].
        rewrite !vector_size_reserve. cbn. split; lia.
    + exact Hlook.
  - split; [| split; [| split; [| split; [| split; [| split]]]]];
      try reflexivity.
    + intros Hm. destruct (Hnone Hm) as (b & Hb). discriminate.
    + intros buffer Hb. discriminate.
    + exact Hlook.
Qed.

End GetBufferFacts.

(** The three glyphs of "ABC" asked of a manager whose glyph cache has two
    slots: the third glyph cannot be placed, and the call is a miss. *)
Lemma GetBuffer_miss_or_complete_witness :
  fst (TwoSlotCache.GetBuffer [65; 66; 67] (FontBufferParameters.default 0)
         TwoSlotCache.idle) = None /\
  exists buffer,
    fst (TwoSlotCache.GetBuffer [65; 66] (FontBufferParameters.default 0)
           TwoSlotCache.idle) = Some buffer.
Proof.
  split.
  - destruct (GetBuffer_miss_or_complete TwoSlotCache.GlyphCache
                TwoSlotCache.GlyphCacheEntry TwoSlotCache.lookup_or_create
                TwoSlotCache.Flush TwoSlotCache.cache_revision
                TwoSlotCache.LayoutText TwoSlotCache.pixel_size
                TwoSlotCache.quad [65; 66; 67] (FontBufferParameters.default 0)
                TwoSlotCache.idle eq_refl) as (Hmiss & _).
    apply (Hmiss 67). reflexivity.
  - destruct (GetBuffer_miss_or_complete TwoSlotCache.GlyphCache
                TwoSlotCache.GlyphCacheEntry TwoSlotCache.lookup_or_create
                TwoSlotCache.Flush TwoSlotCache.cache_revision
                TwoSlotCache.LayoutText TwoSlotCache.pixel_size
                TwoSlotCache.quad [65; 66] (FontBufferParameters.default 0)
                TwoSlotCache.idle eq_refl) as (_ & Hbuilt & _).
    apply Hbuilt. reflexivity.
Defined.

(** ** C3: the array lengths after every completed mutation *)

Section CompletedMutations.

Variable GlyphCacheEntry : Type.
Variable quad :
  GlyphCacheEntry -> FontVertex * FontVertex * FontVertex * FontVertex.

Local Abbreviation complete := (FontManager.complete GlyphCacheEntry quad).
Local Abbreviation complete_all :=
  (FontManager.complete_all GlyphCacheEntry quad).

Lemma complete_keeps_lengths (m : FontManager.completed_mutation GlyphCacheEntry)
    (buffer : FontBuffer.t) :
  FontBuffer.lengths_agree buffer ->
  FontBuffer.lengths_agree (complete m buffer).
Proof.
  intros (Hv & Hi).
  destruct m as [code_point entry | metrics | size | revision | pass];
    cbn [FontManager.complete]; try (split; assumption).
  destruct (AddGlyph_arrays GlyphCacheEntry quad code_point entry buffer)
    as (Hc' & Hv' & Hi').
  assert (vector.size
            (FontBuffer.code_points_
               (FontManager.AddGlyph GlyphCacheEntry quad code_point entry
                  buffer))
          = vector.size (FontBuffer.code_points_ buffer) + 1) as Hc.
  { unfold vector.size. rewrite Hc', length_app. cbn [length]. lia. }
  unfold FontBuffer.lengths_agree. rewrite Hv', Hi', Hc. split; lia.
Qed.

Lemma complete_all_keeps_lengths
    (ms : list (FontManager.completed_mutation GlyphCacheEntry))
    (buffer : FontBuffer.t) :
  FontBuffer.lengths_agree buffer ->
  FontBuffer.lengths_agree (complete_all ms buffer).
Proof.
  unfold FontManager.complete_all.
  revert buffer. induction ms as [| m rest IH]; intros buffer Hagree.
  - exact Hagree.
  - cbn [fold_left]. apply IH. now apply complete_keeps_lengths.
Qed.

(** C3.  For every FontBuffer, after any mutation completes,
    [vertices.length = 4 * code_points.length] and
    [indices.length = 6 * code_points.length]: the equations hold for the
    buffer that either constructor returns, every completed mutation (the
    append of a glyph with its code point, six indices and four vertices;
    the setters of metrics, size, revision and pass) keeps them, and so
    they hold after any sequence of completed mutations of a constructed
    buffer.  The invariant is checked, not repaired: on a buffer whose
    code-point array is within [max_size], [Verify] returns true exactly
    when both equations hold, fails an assertion exactly when one does not
    (as between the calls of an append, after [AddCodepoint] alone), and
    hands the buffer back as it was. *)
Theorem lengths_agree_invariant (this : FontBuffer.t) :
  FontBuffer.within_max_size this ->
  (forall size0 pass0,
     FontBuffer.lengths_agree (FontBuffer.default size0 pass0)) /\
  (forall size0 pass0 size caret_info,
     FontBuffer.lengths_agree (FontBuffer.make size0 pass0 size caret_info)) /\
  (forall m,
     FontBuffer.lengths_agree this ->
     FontBuffer.lengths_agree (complete m this)) /\
  (forall ms size0 pass0 size caret_info,
     FontBuffer.lengths_agree
       (complete_all ms (FontBuffer.make size0 pass0 size caret_info))) /\
  (forall ms size0 pass0,
     FontBuffer.lengths_agree
       (complete_all ms (FontBuffer.default size0 pass0))) /\
  (FontBuffer.Verify this = Some (true, this) <->
   FontBuffer.lengths_agree this) /\
  (FontBuffer.Verify this = None <-> ~ FontBuffer.lengths_agree this) /\
  (forall result this',
     FontBuffer.Verify this = Some (result, this') ->
     result = true /\ this' = this) /\
  (forall codepoint,
     FontBuffer.lengths_agree this ->
     FontBuffer.within_max_size (FontBuffer.AddCodepoint codepoint this) ->
     FontBuffer.Verify (FontBuffer.AddCodepoint codepoint this) = None).
Proof.
  intros Hmax.
  split; [apply lengths_agree_default |].
  split; [apply lengths_agree_make |].
  split; [intros m; apply complete_keeps_lengths |].
  split.
  { intros ms size0 pass0 size caret_info.
    apply complete_all_keeps_lengths, lengths_agree_make. }
  split.
  { intros ms size0 pass0.
    apply complete_all_keeps_lengths, lengths_agree_default. }
  split; [now apply Verify_Some_iff |].
  split; [now apply Verify_None_iff |].
  split; [intros result this'; apply Verify_returns_unchanged |].
  intros codepoint Hagree Hmax'.
  apply (Verify_None_iff _ Hmax'). now apply AddCodepoint_alone.
Qed.

End CompletedMutations.

(** The buffer for a two-glyph string after both glyphs have been appended
    and its revision has been set: [Verify] returns true. *)
Lemma lengths_agree_invariant_witness :
  FontBuffer.Verify
    (FontManager.complete_all TwoSlotCache.GlyphCacheEntry TwoSlotCache.quad
       [FontManager.AppendGlyph TwoSlotCache.GlyphCacheEntry 65 0;
        FontManager.AppendGlyph TwoSlotCache.GlyphCacheEntry 66 1;
        FontManager.SetRevision TwoSlotCache.GlyphCacheEntry 7]
       (FontBuffer.make mathfu.kZeros2i 0 2 true))
  = Some
      (true,
       FontManager.complete_all TwoSlotCache.GlyphCacheEntry TwoSlotCache.quad
         [FontManager.AppendGlyph TwoSlotCache.GlyphCacheEntry 65 0;
          FontManager.AppendGlyph TwoSlotCache.GlyphCacheEntry 66 1;
          FontManager.SetRevision TwoSlotCache.GlyphCacheEntry 7]
         (FontBuffer.make mathfu.kZeros2i 0 2 true)).
Proof.
  destruct (lengths_agree_invariant TwoSlotCache.GlyphCacheEntry
              TwoSlotCache.quad
              (FontManager.complete_all TwoSlotCache.GlyphCacheEntry
                 TwoSlotCache.quad
                 [FontManager.AppendGlyph TwoSlotCache.GlyphCacheEntry 65 0;
                  FontManager.AppendGlyph TwoSlotCache.GlyphCacheEntry 66 1;
                  FontManager.SetRevision TwoSlotCache.GlyphCacheEntry 7]
                 (FontBuffer.make mathfu.kZeros2i 0 2 true)))
    as (_ & _ & _ & Hall & _ & Hsome & _).
  - unfold FontBuffer.within_max_size. cbv. congruence.
  - apply Hsome. apply Hall.
Defined.

(* ================================================================== *)
(** * Further properties of the header's code *)
(* ================================================================== *)

(** ** FontBufferParameters: what a key built by the constructor holds *)

(** X1.  Whatever the storage of the flags word held, the getters of a key
    built by the seven-argument constructor return the constructor's
    arguments (an alignment of three bits, glyph flags of two bits), and
    the line length and the multi-line setting of the key do not depend on
    the storage. *)
Theorem make_reads_back
    (storage storage' font_id text_id font_size : Z) (size : mathfu.vec2i)
    (text_alignment glyph_flags : Z) (caret_info : bool) :
  0 <= text_alignment < 8 -> 0 <= glyph_flags < 4 ->
  let key :=
    FontBufferParameters.make storage font_id text_id font_size size
      text_alignment glyph_flags caret_info in
  let key' :=
    FontBufferParameters.make storage' font_id text_id font_size size
      text_alignment glyph_flags caret_info in
  FontBufferParameters.get_text_alignment key = text_alignment /\
  FontBufferParameters.get_glyph_flags key = glyph_flags /\
  FontBufferParameters.get_caret_info_flag key = caret_info /\
  FontBufferParameters.get_text_id key = text_id /\
  FontBufferParameters.get_size key = size /\
  FontBufferParameters.get_font_size key = font_size /\
  FontBufferParameters.get_line_length key
  = FontBufferParameters.get_line_length key' /\
  FontBufferParameters.get_multi_line_setting key
  = FontBufferParameters.get_multi_line_setting key'.
Proof.
  intros Ha Hg key key'.
  assert (forall s,
             FontBufferParameters.get_text_alignment
               (FontBufferParameters.make s font_id text_id font_size size
                  text_alignment glyph_flags caret_info) = text_alignment)
    as Halign.
  { intros s. rewrite get_text_alignment_make. apply Z.mod_small. lia. }
  split; [apply Halign |].
  split; [unfold key; rewrite get_glyph_flags_make; apply Z.mod_small; lia |].
  split; [apply get_caret_info_flag_make |].
  split; [reflexivity |]. split; [reflexivity |]. split; [reflexivity |].
  unfold FontBufferParameters.get_line_length,
    FontBufferParameters.get_multi_line_setting, key, key'.
  rewrite !Halign. split; reflexivity.
Qed.

(** A right-justified key over storage full of ones, read back. *)
Lemma make_reads_back_witness :
  FontBufferParameters.get_text_alignment
    (FontBufferParameters.make 4294967295 1 2 1107296256
       (mathfu.Vec2i 100 0) kTextAlignmentRightJustify 2 true)
  = kTextAlignmentRightJustify /\
  FontBufferParameters.get_glyph_flags
    (FontBufferParameters.make 4294967295 1 2 1107296256
       (mathfu.Vec2i 100 0) kTextAlignmentRightJustify 2 true) = 2.
Proof.
  destruct (make_reads_back 4294967295 0 1 2 1107296256 (mathfu.Vec2i 100 0)
              kTextAlignmentRightJustify 2 true)
    as (Halign & Hglyph & _).
  - cbv. split; congruence.
  - lia.
  - split; [exact Halign | exact Hglyph].
Defined.

(** ** FontBufferParameters: [operator==] as a key equality *)

Lemma same_number_sym (x y : spec_float) : same_number x y -> same_number y x.
Proof.
  destruct x, y; cbn; intuition congruence.
Qed.

Lemma same_number_trans (x y z : spec_float) :
  same_number x y -> same_number y z -> same_number x z.
Proof.
  destruct x, y, z; cbn; intuition congruence.
Qed.

Lemma float_eqb_sym (a b : Z) : Float32.eqb a b = Float32.eqb b a.
Proof.
  unfold Float32.eqb. apply Bool.eq_iff_eq_true.
  rewrite !SFeqb_same_number. split; apply same_number_sym.
Qed.

Lemma float_eqb_trans (a b c : Z) :
  Float32.eqb a b = true -> Float32.eqb b c = true -> Float32.eqb a c = true.
Proof.
  unfold Float32.eqb. rewrite !SFeqb_same_number. apply same_number_trans.
Qed.

(** X2.  [operator==] is symmetric and transitive on all keys, and a key
    compares equal to itself exactly when its font size is not a NaN: on
    keys without a NaN font size it is an equivalence relation, as the
    [unordered_map]s that use it as key equality need. *)
Theorem operator_eq_equivalence (a b c : FontBufferParameters.t) :
  Float32.is_float32 (font_size_ a) ->
  FontBufferParameters.operator_eq a b = FontBufferParameters.operator_eq b a /\
  (FontBufferParameters.operator_eq a b = true ->
   FontBufferParameters.operator_eq b c = true ->
   FontBufferParameters.operator_eq a c = true) /\
  (FontBufferParameters.operator_eq a a = true <->
   Float32.is_nan (font_size_ a) = false).
Proof.
  intros Hfloat. split; [| split].
  - unfold FontBufferParameters.operator_eq.
    rewrite (float_eqb_sym (font_size_ a)).
    rewrite (Z.eqb_sym (font_id_ a)), (Z.eqb_sym (text_id_ a)),
      (Z.eqb_sym (mathfu.x (size_ a))), (Z.eqb_sym (mathfu.y (size_ a))),
      (Z.eqb_sym (flags_value_ a)).
    reflexivity.
  - unfold FontBufferParameters.operator_eq.
    rewrite !Bool.andb_true_iff, !Z.eqb_eq.
    intros (((((Hf & Ht) & Hs) & Hx) & Hy) & Hv)
           (((((Hf' & Ht') & Hs') & Hx') & Hy') & Hv').
    repeat split; try congruence.
    eapply float_eqb_trans; eassumption.
  - unfold FontBufferParameters.operator_eq.
    rewrite !Z.eqb_refl, !Bool.andb_true_r. cbn [andb].
    rewrite (float_eqb_iff _ _ Hfloat Hfloat). split.
    + intros [[_ Hnan] | [Hz _]]; [exact Hnan |].
      unfold Float32.is_zero, Float32.is_nan in *. lia.
    + intros Hnan. left. now split.
Qed.

(** Three keys of a 32-pixel text. *)
Lemma operator_eq_equivalence_witness :
  FontBufferParameters.operator_eq
    (FontBufferParameters.Build 1 2 1107296256 (mathfu.Vec2i 0 0) 0)
    (FontBufferParameters.Build 1 2 1107296256 (mathfu.Vec2i 0 0) 0) = true.
Proof.
  destruct (operator_eq_equivalence
              (FontBufferParameters.Build 1 2 1107296256 (mathfu.Vec2i 0 0) 0)
              (FontBufferParameters.Build 1 2 1107296256 (mathfu.Vec2i 0 0) 0)
              (FontBufferParameters.Build 1 2 1107296256 (mathfu.Vec2i 0 0) 0))
    as (_ & _ & Hrefl).
  - cbv. split; congruence.
  - apply Hrefl. reflexivity.
Defined.

(** ** FontBufferParameters: the hash and the equality agree *)

(** X3.  The hash of a key depends on nothing but its font size, its size
    and its flags word, the font size up to float equality when
    [std::hash<float>] respects float equality (as the C++ library
    guarantees): keys that [operator==] holds equal hash alike, and so do
    keys that differ in their font id or text id only, which the hash
    reads from the hasher object and not from the key. *)
Theorem operator_call_respects_equality
    (hashed_id_bits : Z) (std_hash_float std_hash_int32_t : Z -> Z)
    (hasher a b : FontBufferParameters.t) :
  (forall x y, Float32.eqb x y = true -> std_hash_float x = std_hash_float y) ->
  (Float32.eqb (font_size_ a) (font_size_ b) = true ->
   size_ a = size_ b -> flags_value_ a = flags_value_ b ->
   FontBufferParameters.operator_call hashed_id_bits std_hash_float
     std_hash_int32_t hasher a
   = FontBufferParameters.operator_call hashed_id_bits std_hash_float
       std_hash_int32_t hasher b) /\
  (FontBufferParameters.operator_eq a b = true ->
   FontBufferParameters.operator_call hashed_id_bits std_hash_float
     std_hash_int32_t hasher a
   = FontBufferParameters.operator_call hashed_id_bits std_hash_float
       std_hash_int32_t hasher b).
Proof.
  intros Hhash.
  assert (Float32.eqb (font_size_ a) (font_size_ b) = true ->
          size_ a = size_ b -> flags_value_ a = flags_value_ b ->
          FontBufferParameters.operator_call hashed_id_bits std_hash_float
            std_hash_int32_t hasher a
          = FontBufferParameters.operator_call hashed_id_bits std_hash_float
              std_hash_int32_t hasher b) as Hfields.
  { intros Hs Hsz Hv. unfold FontBufferParameters.operator_call.
    now rewrite (Hhash _ _ Hs), Hsz, Hv. }
  split; [exact Hfields |].
  unfold FontBufferParameters.operator_eq.
  rewrite !Bool.andb_true_iff, !Z.eqb_eq.
  intros (((((Hf & Ht) & Hs) & Hx) & Hy) & Hv).
  apply Hfields; auto using vec2i_eq.
Qed.

(** Two keys of different texts, hashed with the identity for
    [std::hash<int32_t>] and a constant for [std::hash<float>]. *)
Lemma operator_call_respects_equality_witness :
  FontBufferParameters.operator_call 64 (fun _ => 0) (fun n => n)
    (FontBufferParameters.default 0)
    (FontBufferParameters.Build 1 2 1107296256 (mathfu.Vec2i 0 0) 0)
  = FontBufferParameters.operator_call 64 (fun _ => 0) (fun n => n)
      (FontBufferParameters.default 0)
      (FontBufferParameters.Build 1 3 1107296256 (mathfu.Vec2i 0 0) 0).
Proof.
  destruct (operator_call_respects_equality 64 (fun _ => 0) (fun n => n)
              (FontBufferParameters.default 0)
              (FontBufferParameters.Build 1 2 1107296256 (mathfu.Vec2i 0 0) 0)
              (FontBufferParameters.Build 1 3 1107296256 (mathfu.Vec2i 0 0) 0))
    as (Hfields & _).
  - intros x y _. reflexivity.
  - apply Hfields; reflexivity.
Defined.

(** ** FontBufferParameters: equal keys ask for the same layout *)

(** The comparison of a float with another number does not tell two floats
    apart that compare equal. *)
Lemma SFltb_same_number (x x' y : spec_float) :
  same_number x x' -> SFltb x y = SFltb x' y.
Proof.
  unfold SFltb.
  destruct x as [s | s | | s m e], x' as [s' | s' | | s' m' e'];
    cbn [same_number]; try contradiction; intros H.
  - now destruct y.
  - subst s'. reflexivity.
  - destruct H as (-> & -> & ->). reflexivity.
Qed.

(** X4.  Keys that [operator==] holds equal ask for the same layout: they
    have the same text id, size, alignment, glyph flags and caret flag,
    the same line length and the same multi-line setting.  (Their font
    sizes are equal as floats; the bit patterns can differ in the sign of
    a zero.) *)
Theorem operator_eq_same_layout (a b : FontBufferParameters.t) :
  FontBufferParameters.operator_eq a b = true ->
  FontBufferParameters.get_text_id a = FontBufferParameters.get_text_id b /\
  FontBufferParameters.get_size a = FontBufferParameters.get_size b /\
  FontBufferParameters.get_text_alignment a
  = FontBufferParameters.get_text_alignment b /\
  FontBufferParameters.get_glyph_flags a
  = FontBufferParameters.get_glyph_flags b /\
  FontBufferParameters.get_caret_info_flag a
  = FontBufferParameters.get_caret_info_flag b /\
  FontBufferParameters.get_line_length a
  = FontBufferParameters.get_line_length b /\
  FontBufferParameters.get_multi_line_setting a
  = FontBufferParameters.get_multi_line_setting b.
Proof.
  unfold FontBufferParameters.operator_eq.
  rewrite !Bool.andb_true_iff, !Z.eqb_eq.
  intros (((((Hf & Ht) & Hs) & Hx) & Hy) & Hv).
  unfold FontBufferParameters.get_text_id, FontBufferParameters.get_size,
    FontBufferParameters.get_line_length,
    FontBufferParameters.get_multi_line_setting,
    FontBufferParameters.get_text_alignment,
    FontBufferParameters.get_glyph_flags,
    FontBufferParameters.get_caret_info_flag.
  rewrite Hv, Hx, Hy.
  repeat split; auto using vec2i_eq.
  unfold Float32.int32_gtb.
  unfold Float32.eqb in Hs. apply SFeqb_same_number in Hs.
  now rewrite (SFltb_same_number _ _ _ Hs).
Qed.

(** Keys whose font sizes are [+0.0] and [-0.0]. *)
Lemma operator_eq_same_layout_witness :
  FontBufferParameters.get_multi_line_setting
    (FontBufferParameters.Build 1 2 0 (mathfu.Vec2i 10 5) 0)
  = FontBufferParameters.get_multi_line_setting
      (FontBufferParameters.Build 1 2 2147483648 (mathfu.Vec2i 10 5) 0).
Proof.
  apply (operator_eq_same_layout
           (FontBufferParameters.Build 1 2 0 (mathfu.Vec2i 10 5) 0)
           (FontBufferParameters.Build 1 2 2147483648 (mathfu.Vec2i 10 5) 0)).
  reflexivity.
Defined.

(** ** FontBufferParameters: line length and multi-line setting together *)

Lemma to_int32_t_multiple (x k : Z) :
  (k | 2 ^ 31) -> (k | x) -> (k | to_int32_t x).
Proof.
  intros Hk Hx. unfold to_int32_t, to_signed.
  change (2 ^ (32 - 1)) with (2 ^ 31).
  assert (k | 2 ^ 32) as Hk32.
  { change (2 ^ 32) with (2 ^ 31 * 2). now apply Z.divide_mul_l. }
  destruct (Z.eq_dec k 0) as [-> | Hnz].
  { destruct Hk as (q & Hq). exfalso.
    change (2 ^ 31) with 2147483648 in Hq. lia. }
  apply Z.divide_sub_r; [| exact Hk].
  rewrite Z.mod_eq by (cbv; congruence).
  apply Z.divide_sub_r.
  - now apply Z.divide_add_r.
  - now apply Z.divide_mul_l.
Qed.

(** X5.  A key asks for a fixed line length only where it asks for
    multi-line layout: whenever [get_line_length] is not 0,
    [get_multi_line_setting] is true; a key without a width has line
    length 0 and is single-line; and the line length is always a whole
    number of pixels, a multiple of [kFreeTypeUnit]. *)
Theorem line_length_needs_multi_line (p : FontBufferParameters.t) :
  (FontBufferParameters.get_line_length p <> 0 ->
   FontBufferParameters.get_multi_line_setting p = true) /\
  (mathfu.x (size_ p) = 0 ->
   FontBufferParameters.get_line_length p = 0 /\
   FontBufferParameters.get_multi_line_setting p = false) /\
  (kFreeTypeUnit | FontBufferParameters.get_line_length p).
Proof.
  unfold FontBufferParameters.get_line_length,
    FontBufferParameters.get_multi_line_setting.
  split; [| split].
  - destruct (Z.eqb_spec (FontBufferParameters.get_text_alignment p)
                kTextAlignmentLeft) as [Hl | Hl];
      [cbn [orb]; intros H; now destruct H |].
    destruct (FontBufferParameters.get_text_alignment p
              =? kTextAlignmentCenter);
      cbn [orb negb]; [intros H; now destruct H |].
    destruct (Z.eqb_spec (mathfu.x (size_ p)) 0) as [Hx | Hx];
      [| reflexivity].
    rewrite Hx. intros H. now destruct H.
  - intros ->. cbn [Z.eqb].
    split; [| reflexivity].
    now destruct (_ || _).
  - destruct (_ || _); [apply Z.divide_0_r |].
    unfold mul_int32_t, kFreeTypeUnit.
    apply to_int32_t_multiple.
    + exists 33554432. reflexivity.
    + apply Z.divide_factor_r.
Qed.

(** A right-aligned request 100 pixels wide. *)
Lemma line_length_needs_multi_line_witness :
  FontBufferParameters.get_multi_line_setting
    (FontBufferParameters.make 0 1 2 1107296256 (mathfu.Vec2i 100 0)
       kTextAlignmentRight 0 false) = true.
Proof.
  destruct (line_length_needs_multi_line
              (FontBufferParameters.make 0 1 2 1107296256
                 (mathfu.Vec2i 100 0) kTextAlignmentRight 0 false))
    as (Hmulti & _).
  apply Hmulti. cbv. congruence.
Defined.

(** ** FontMetrics: the total height *)

Lemma reachable_sign_constraints (this : FontMetrics.t) :
  FontMetrics.reachable this -> FontMetrics.sign_constraints this.
Proof.
  intros Hreach.
  induction Hreach as [| b il a d el this Hmake | u this this' _ IH Happly].
  - unfold FontMetrics.sign_constraints. cbn. lia.
  - apply FontMetrics_make_Some in Hmake.
    destruct Hmake as (-> & ?). unfold FontMetrics.sign_constraints. cbn. lia.
  - eapply FontMetrics_apply_keeps; eassumption.
Qed.

(** X6.  For every [FontMetrics] object that a program can hold and whose
    height fits an [int32_t], [total] is not negative, it is at least the
    extent [ascender - descender] of the glyph box and at least each of
    the four magnitudes, and it is 0 only when the four leading and extent
    fields are all 0. *)
Theorem total_bounds (this : FontMetrics.t) :
  FontMetrics.reachable this ->
  is_int32_t (FontMetrics.exact_total this) ->
  0 <= FontMetrics.total this /\
  FontMetrics.ascender this - FontMetrics.descender this
    <= FontMetrics.total this /\
  FontMetrics.internal_leading this - FontMetrics.external_leading this
    <= FontMetrics.total this /\
  (FontMetrics.total this = 0 <->
   FontMetrics.internal_leading this = 0 /\ FontMetrics.ascender this = 0 /\
   FontMetrics.descender this = 0 /\ FontMetrics.external_leading this = 0).
Proof.
  intros Hreach Hfit.
  apply reachable_sign_constraints in Hreach.
  rewrite total_wraps_exact_total, (to_int32_t_id _ Hfit).
  unfold FontMetrics.sign_constraints, FontMetrics.exact_total,
    FontMetrics.ascender, FontMetrics.descender, FontMetrics.internal_leading,
    FontMetrics.external_leading in *.
  lia.
Qed.

(** Metrics built with ascender 10 and descender -2, whose descender is then
    lowered to -5. *)
Lemma total_bounds_witness :
  0 <= FontMetrics.total (FontMetrics.Build 0 1 10 (-5) (-1)) /\
  10 - -5 <= FontMetrics.total (FontMetrics.Build 0 1 10 (-5) (-1)).
Proof.
  destruct (total_bounds (FontMetrics.Build 0 1 10 (-5) (-1)))
    as (Hpos & Hbox & _).
  - apply (FontMetrics.reachable_apply (FontMetrics.SetDescender (-5))
             (FontMetrics.Build 0 1 10 (-2) (-1))).
    + apply (FontMetrics.reachable_make 0 1 10 (-2) (-1)). reflexivity.
    + reflexivity.
  - cbv. split; congruence.
  - split; [exact Hpos | exact Hbox].
Defined.

(** ** FontMetrics: the constructor and the setters *)

(** X7.  The five-argument constructor does what the five setters do when
    they are called in the order of its arguments on any [FontMetrics]
    object: both fail an assertion on the same arguments, and otherwise
    both give the same object, of which nothing is left of what the object
    held before. *)
Theorem make_as_setters (b il a d el : Z) (this : FontMetrics.t) :
  FontMetrics.run
    [FontMetrics.SetBaseLine b; FontMetrics.SetInternalLeading il;
     FontMetrics.SetAscender a; FontMetrics.SetDescender d;
     FontMetrics.SetExternalLeading el] this
  = FontMetrics.make b il a d el.
Proof.
  unfold FontMetrics.make. cbn.
  unfold FontMetrics.set_internal_leading.
  destruct (il >=? 0); cbn; [| reflexivity].
  unfold FontMetrics.set_ascender.
  destruct (a >=? 0); cbn; [| reflexivity].
  unfold FontMetrics.set_descender.
  destruct (d <=? 0); cbn; [| reflexivity].
  unfold FontMetrics.set_external_leading.
  destruct (el <=? 0); cbn; reflexivity.
Qed.

(** ** FontBuffer: code points within the reserved size *)

Lemma push_back_within_capacity {A : Type} (cs : list A) (v : vector.t A) :
  vector.size v + Z.of_nat (length cs) <= vector.capacity v ->
  fold_left (fun w c => vector.push_back c w) cs v
  = vector.Build (vector.data v ++ cs) (vector.capacity v).
Proof.
  revert v. induction cs as [| c rest IH]; intros v Hfits.
  - cbn. rewrite app_nil_r. now destruct v.
  - cbn [fold_left]. cbn [length] in Hfits.
    rewrite IH.
    + unfold vector.push_back. cbn [vector.data vector.capacity].
      replace (vector.size v <? vector.capacity v) with true by lia.
      now rewrite <- app_assoc.
    + rewrite vector_size_push_back.
      unfold vector.push_back. cbn [vector.capacity].
      replace (vector.size v <? vector.capacity v) with true by lia.
      lia.
Qed.

Lemma AddCodepoint_all (cs : list Z) (this : FontBuffer.t) :
  FontBuffer.mutate_all (map FontBuffer.CallAddCodepoint cs) this
  = FontBuffer.Build (FontBuffer.metrics_ this) (FontBuffer.indices_ this)
      (FontBuffer.vertices_ this)
      (fold_left (fun w c => vector.push_back c w) cs
         (FontBuffer.code_points_ this))
      (FontBuffer.caret_positions_ this) (FontBuffer.word_boundary_ this)
      (FontBuffer.word_boundary_caret_ this) (FontBuffer.size_ this)
      (FontBuffer.revision_ this) (FontBuffer.pass_ this)
      (FontBuffer.line_start_index_ this)
      (FontBuffer.line_start_caret_index_ this).
Proof.
  unfold FontBuffer.mutate_all.
  revert this. induction cs as [| c rest IH]; intros this.
  - now destruct this.
  - cbn [map fold_left]. rewrite IH. reflexivity.
Qed.

(** X8.  A buffer constructed for [size] glyphs takes up to [size] code
    points without reallocating: after [AddCodepoint] has been called for
    each code point of a sequence no longer than [size], the code-point
    array holds the sequence in order, its capacity is still the [size]
    that the constructor reserved, and the vertices, the indices, the
    caret positions and the metrics are those of the new buffer. *)
Theorem AddCodepoint_within_reserved
    (size0 : mathfu.vec2i) (pass0 size : Z) (caret_info : bool)
    (cs : list Z) :
  is_uint32_t size ->
  Z.of_nat (length cs) <= size ->
  let constructed := FontBuffer.make size0 pass0 size caret_info in
  let filled :=
    FontBuffer.mutate_all (map FontBuffer.CallAddCodepoint cs) constructed in
  vector.data (FontBuffer.get_code_points filled) = cs /\
  vector.capacity (FontBuffer.get_code_points filled) = size /\
  FontBuffer.get_vertices filled = FontBuffer.get_vertices constructed /\
  FontBuffer.get_indices filled = FontBuffer.get_indices constructed /\
  FontBuffer.GetCaretPositions filled
  = FontBuffer.GetCaretPositions constructed /\
  FontBuffer.metrics filled = FontBuffer.metrics constructed.
Proof.
  intros Hsize Hfits constructed filled.
  assert (vector.capacity (FontBuffer.code_points_ constructed) = size)
    as Hcap.
  { unfold constructed, FontBuffer.make. cbn [FontBuffer.code_points_].
    rewrite vector_capacity_reserve.
    cbn [FontBuffer.default FontBuffer.code_points_ vector.empty
         vector.capacity].
    unfold is_uint32_t in Hsize. lia. }
  assert (vector.data (FontBuffer.code_points_ constructed) = []) as Hdata.
  { unfold constructed, FontBuffer.make, vector.reserve.
    cbn [FontBuffer.code_points_ FontBuffer.default vector.empty
         vector.capacity vector.data].
    now destruct (0 <? size). }
  unfold filled. rewrite AddCodepoint_all.
  unfold FontBuffer.get_code_points, FontBuffer.get_vertices,
    FontBuffer.get_indices, FontBuffer.GetCaretPositions, FontBuffer.metrics.
  cbn [FontBuffer.code_points_ FontBuffer.vertices_ FontBuffer.indices_
       FontBuffer.caret_positions_ FontBuffer.metrics_].
  rewrite push_back_within_capacity.
  - cbn [vector.data vector.capacity]. rewrite Hdata, Hcap.
    repeat split; reflexivity.
  - unfold vector.size. rewrite Hdata, Hcap. cbn [length]. lia.
Qed.

(** The three code points of a string laid out in a buffer for three
    glyphs. *)
Lemma AddCodepoint_within_reserved_witness :
  vector.data
    (FontBuffer.get_code_points
       (FontBuffer.mutate_all
          (map FontBuffer.CallAddCodepoint [102; 112; 108])
          (FontBuffer.make mathfu.kZeros2i 0 3 true))) = [102; 112; 108] /\
  vector.capacity
    (FontBuffer.get_code_points
       (FontBuffer.mutate_all
          (map FontBuffer.CallAddCodepoint [102; 112; 108])
          (FontBuffer.make mathfu.kZeros2i 0 3 true))) = 3.
Proof.
  destruct (AddCodepoint_within_reserved mathfu.kZeros2i 0 3 true
              [102; 112; 108])
    as (Hdata & Hcap & _).
  - cbv. split; congruence.
  - cbv. congruence.
  - split; [exact Hdata | exact Hcap].
Defined.

(** ** FontBuffer: where [GetCaretPosition] has a result *)

(** X9.  [GetCaretPosition] reads past the last caret position at one index
    only, and only in a buffer that has caret storage: for an index that
    is not negative it has no defined result exactly when
    [HasCaretPositions] is true and the index is the number of stored
    positions.  A buffer for which [HasCaretPositions] is false answers
    [kCaretPositionInvalid] at every index, and so does a buffer
    constructed without caret information after any calls of
    [AddCodepoint] and the setters. *)
Theorem GetCaretPosition_defined (this : FontBuffer.t) (index : Z) :
  0 <= index ->
  (FontBuffer.GetCaretPosition this index = None <->
   FontBuffer.HasCaretPositions this = true /\
   index = vector.size (FontBuffer.GetCaretPositions this)) /\
  (FontBuffer.HasCaretPositions this = false ->
   FontBuffer.GetCaretPosition this index = Some kCaretPositionInvalid) /\
  (forall size0 pass0 size ms,
      FontBuffer.GetCaretPosition
        (FontBuffer.mutate_all ms (FontBuffer.make size0 pass0 size false))
        index
      = Some kCaretPositionInvalid).
Proof.
  intros Hindex.
  unfold FontBuffer.HasCaretPositions, FontBuffer.GetCaretPositions.
  split; [| split].
  - unfold FontBuffer.GetCaretPosition.
    destruct (Z.eqb_spec (vector.capacity (FontBuffer.caret_positions_ this))
                0) as [Hcap | Hcap]; cbn [orb negb].
    + split; [discriminate | intros (? & _); discriminate].
    + destruct (Z.ltb_spec (vector.size (FontBuffer.caret_positions_ this))
                  index) as [Hlt | Hge].
      * split; [discriminate | intros (_ & ->); lia].
      * destruct (Z.eq_dec index
                    (vector.size (FontBuffer.caret_positions_ this)))
          as [Heq | Hne].
        -- split; [now intros _ |]. intros _. rewrite Heq.
           unfold vector.subscript.
           now replace
             ((0 <=? vector.size (FontBuffer.caret_positions_ this))
              && (vector.size (FontBuffer.caret_positions_ this)
                  <? vector.size (FontBuffer.caret_positions_ this)))
             with false by lia.
        -- destruct (vector_subscript_in_range
                       (FontBuffer.caret_positions_ this) index)
             as (position & Hat & _); [lia |].
           rewrite Hat. split; [discriminate | intros (_ & ?); contradiction].
  - unfold FontBuffer.GetCaretPosition.
    destruct (vector.capacity (FontBuffer.caret_positions_ this) =? 0);
      [reflexivity | discriminate].
  - intros size0 pass0 size ms. unfold FontBuffer.GetCaretPosition.
    now rewrite mutate_all_keeps_caret_positions.
Qed.

(** A buffer with room for three caret positions and none stored, asked for
    the first. *)
Lemma GetCaretPosition_defined_witness :
  FontBuffer.GetCaretPosition (FontBuffer.make mathfu.kZeros2i 0 2 true) 0
  = None.
Proof.
  destruct (GetCaretPosition_defined
              (FontBuffer.make mathfu.kZeros2i 0 2 true) 0)
    as (Hnone & _).
  - lia.
  - apply Hnone. split; reflexivity.
Defined.

(** ** FontManager: sequences of [SetLayoutDirection] *)

Section LayoutFacts.

Variable GlyphCache : Type.

Local Abbreviation SetLayoutDirection :=
  (FontManagerLayout.SetLayoutDirection GlyphCache).
Local Abbreviation SetLayoutDirections :=
  (FontManagerLayout.SetLayoutDirections GlyphCache).
Local Abbreviation GetLayoutDirection :=
  (FontManagerLayout.GetLayoutDirection GlyphCache).
Local Abbreviation map_buffers := (FontManagerLayout.map_buffers GlyphCache).
Local Abbreviation manager_ := (FontManagerLayout.manager_ GlyphCache).
Local Abbreviation log_ := (FontManagerLayout.log_ GlyphCache).

(** One call: the direction and the log afterwards. *)
Lemma SetLayoutDirection_direction (d : TextLayoutDirection)
    (this : FontManagerLayout.t GlyphCache) :
  GetLayoutDirection (SetLayoutDirection d this)
  = match d with
    | kTextLayoutDirectionTTB => GetLayoutDirection this
    | _ => d
    end.
Proof. destruct d; reflexivity. Qed.

Lemma SetLayoutDirection_log (d : TextLayoutDirection)
    (this : FontManagerLayout.t GlyphCache) :
  log_ (SetLayoutDirection d this)
  = log_ this
    ++ (if TextLayoutDirection_eqb d kTextLayoutDirectionTTB
        then [FontManagerLayout.ttb_not_supported] else []).
Proof.
  destruct this as [manager current log].
  destruct d, current; cbn; now rewrite ?app_nil_r.
Qed.

(** X10.  After any sequence of [SetLayoutDirection] calls,
    [GetLayoutDirection] returns the last requested direction that is not
    [kTextLayoutDirectionTTB], or the direction from before the calls if
    every request was for TTB; one error is logged for each TTB request
    and nothing else; and a manager whose direction is not TTB never gets
    TTB as its direction. *)
Theorem SetLayoutDirections_direction
    (directions : list TextLayoutDirection)
    (this : FontManagerLayout.t GlyphCache) :
  GetLayoutDirection (SetLayoutDirections directions this)
  = FontManagerLayout.last_supported directions (GetLayoutDirection this) /\
  log_ (SetLayoutDirections directions this)
  = log_ this
    ++ repeat FontManagerLayout.ttb_not_supported
         (FontManagerLayout.count_ttb directions) /\
  (TextLayoutDirection_eqb (GetLayoutDirection this) kTextLayoutDirectionTTB
   = false ->
   TextLayoutDirection_eqb
     (GetLayoutDirection (SetLayoutDirections directions this))
     kTextLayoutDirectionTTB = false).
Proof.
  unfold FontManagerLayout.SetLayoutDirections,
    FontManagerLayout.last_supported, FontManagerLayout.count_ttb.
  revert this. induction directions as [| d rest IH]; intros this.
  - cbn. rewrite app_nil_r. auto.
  - cbn [fold_left filter].
    destruct (IH (SetLayoutDirection d this)) as (Hdir & Hlog & Hnot).
    clear IH. rewrite SetLayoutDirection_direction in Hdir, Hnot.
    rewrite SetLayoutDirection_log in Hlog.
    split; [exact Hdir |]. split.
    + rewrite Hlog, <- app_assoc.
      now destruct (TextLayoutDirection_eqb d kTextLayoutDirectionTTB).
    + intros Hcurrent. apply Hnot. now destruct d.
Qed.

(** X11.  A sequence of [SetLayoutDirection] calls keeps the cached buffers
    exactly when every request is for TTB or for the direction the manager
    already has, and empties the buffer cache otherwise; in particular the
    cache is empty whenever the direction has changed.  The glyph cache,
    the atlas revision and the pass of the manager are never touched. *)
Theorem SetLayoutDirections_cache
    (directions : list TextLayoutDirection)
    (this : FontManagerLayout.t GlyphCache) :
  map_buffers (SetLayoutDirections directions this)
  = (if FontManagerLayout.asks_nothing_new directions (GetLayoutDirection this)
     then map_buffers this else []) /\
  (TextLayoutDirection_eqb
     (GetLayoutDirection (SetLayoutDirections directions this))
     (GetLayoutDirection this) = false ->
   map_buffers (SetLayoutDirections directions this) = []) /\
  FontManager.glyph_cache_ GlyphCache
    (manager_ (SetLayoutDirections directions this))
  = FontManager.glyph_cache_ GlyphCache (manager_ this) /\
  FontManager.current_atlas_revision_ GlyphCache
    (manager_ (SetLayoutDirections directions this))
  = FontManager.current_atlas_revision_ GlyphCache (manager_ this) /\
  FontManager.current_pass_ GlyphCache
    (manager_ (SetLayoutDirections directions this))
  = FontManager.current_pass_ GlyphCache (manager_ this).
Proof.
  unfold FontManagerLayout.SetLayoutDirections,
    FontManagerLayout.asks_nothing_new.
  revert this. induction directions as [| d rest IH]; intros this.
  - cbn. repeat split.
    unfold FontManagerLayout.GetLayoutDirection.
    unfold TextLayoutDirection_eqb. rewrite Z.eqb_refl. discriminate.
  - cbn [fold_left forallb].
    destruct (IH (SetLayoutDirection d this))
      as (Hmap & Hchanged & Hglyph & Hatlas & Hpass).
    rewrite Hglyph, Hatlas, Hpass.
    assert (fold_left (fun m d0 => SetLayoutDirection d0 m) rest
              (SetLayoutDirection d this)
            = SetLayoutDirections rest (SetLayoutDirection d this)) as Hfold
        by reflexivity.
    clear IH Hglyph Hatlas Hpass.
    unfold FontManagerLayout.GetLayoutDirection,
      FontManagerLayout.map_buffers in *.
    destruct this as [manager current log].
    destruct manager as [glyphs buffers atlas pass].
    destruct d, current; cbn in *;
      repeat split; auto;
      try (rewrite Hmap;
           now destruct (forallb _ rest)).
Qed.

End LayoutFacts.

(** ** FontShader: the uniforms of the shader that was set *)

(** X12.  After [set] with a shader, whatever the FontShader held before,
    each of the four setters sends its value to that shader and to the
    handle that [FindUniform] gave for the setter's own uniform name
    ([pos_offset], [color], [clipping], [threshold]) in that shader, and
    fails its assertion when the shader has no such uniform (a negative
    handle); [set] with a null shader fails its assertion. *)
Theorem setters_after_set (Shader Value : Type)
    (FindUniform : Shader -> String.string -> Z) (shader : Shader)
    (before : FontShader.t Shader) (which : FontShader.setter)
    (value : Value) :
  FontShader.set Shader FindUniform None before = None /\
  exists this,
    FontShader.set Shader FindUniform (Some shader) before = Some this /\
    FontShader.call_setter Shader Value which value this
    = (if FindUniform shader (FontShader.uniform_name which) >=? 0
       then Some (FontShader.SetUniform Shader Value shader
                    (FindUniform shader (FontShader.uniform_name which))
                    value)
       else None).
Proof.
  split; [reflexivity |].
  eexists. split; [reflexivity |].
  destruct which; cbn;
    unfold FontShader.set_position_offset, FontShader.set_color,
      FontShader.set_clipping, FontShader.set_threshold,
      FontShader.set_uniform;
    cbn; now destruct (_ >=? 0).
Qed.
